(** * chgnet.utils.vasp_utils: a shallow embedding

    The module has two functions.  [parse_vasp_dir] locates three VASP output
    files, re-parses the per-atom charge and magnetization tables of the
    OUTCAR with a hand-written line scanner, aligns the recovered tables with
    the ionic steps and assembles a dataset.  [solve_charge_by_mag] maps the
    final magnetic moment of every site to an oxidation state.

    Python values are embedded as follows.
    - [str] is [string]; the logs are taken to be ASCII, as VASP writes them.
    - [float] is the kernel's binary64 [float]; comparisons are the IEEE ones.
    - [int] is [Z] (or [nat] for a length).
    - a [dict] keyed by strings is a [gmap string _]; a [dict] that is iterated
      in insertion order is an association list.
    - a raised exception is the left injection of [Res]; printed lines are
      collected in a list, oldest first.
    - pymatgen and monty are outside the repository: their objects are records
      holding what the two functions read, and their calls are fields of
      [World] or small functions stated next to the records. *)

From Stdlib Require Import Floats ZArith Ascii String List Bool Lia.
From stdpp Require Import base option list gmap strings pretty.

Local Open Scope string_scope.
Local Open Scope list_scope.

(** The literal 4.2 of the source is read as the nearest binary64, as
    Python reads it. *)
#[local] Set Warnings "-inexact-float".

(** ** Exceptions and results *)

Inductive exn : Type :=
  | FileNotFoundError (msg : string)
  | RuntimeError (msg : string)
  | IndexError
  | KeyError (key : string)
  | ValueError
  | TypeError
  | AttributeError
  | ZeroDivisionError
  | OSError.

Definition Res (A : Type) : Type := (exn + A)%type.

Definition ret {A} (a : A) : Res A := inr a.
Definition raise {A} (e : exn) : Res A := inl e.

Definition bind {A B} (m : Res A) (k : A -> Res B) : Res B :=
  match m with
  | inl e => inl e
  | inr a => k a
  end.

Notation "'do' x <- m ; k" := (bind m (fun x => k))
  (at level 10, x name, m at level 100, k at level 200).

Definition is_ok {A} (m : Res A) : bool :=
  match m with inr _ => true | inl _ => false end.

(** [[f(x) for x in l]] where [f] may raise: the first exception wins. *)
Fixpoint mapM {A B} (f : A -> Res B) (l : list A) : Res (list B) :=
  match l with
  | [] => ret []
  | x :: t => do y <- f x; do ys <- mapM f t; ret (y :: ys)
  end.

(** ** Text primitives *)

(** [str.isspace] and the regular expression class [\s], on ASCII. *)
Definition is_space (c : ascii) : bool :=
  let n := nat_of_ascii c in
  (Nat.leb 9 n && Nat.leb n 13) || (Nat.leb 28 n && Nat.leb n 32).

(** The class [\d], on ASCII. *)
Definition is_digit (c : ascii) : bool :=
  let n := nat_of_ascii c in Nat.leb 48 n && Nat.leb n 57.

(** The class [[\d\.\-]]. *)
Definition is_numchar (c : ascii) : bool :=
  is_digit c || Ascii.eqb c "." || Ascii.eqb c "-".

Fixpoint drop_while (p : ascii -> bool) (l : list ascii) : list ascii :=
  match l with
  | [] => []
  | c :: t => if p c then drop_while p t else l
  end.

Fixpoint take_while (p : ascii -> bool) (l : list ascii) : list ascii :=
  match l with
  | [] => []
  | c :: t => if p c then c :: take_while p t else []
  end.

(** [s.strip()] *)
Definition strip (s : string) : string :=
  let l := drop_while is_space (list_ascii_of_string s) in
  string_of_list_ascii (rev (drop_while is_space (rev l))).

(** [s.startswith(p)] *)
Definition startswith (s p : string) : bool := String.prefix p s.

(** [needle in hay], which is also what [re.search] does for a pattern
    without special characters. *)
Fixpoint contains (needle hay : string) : bool :=
  String.prefix needle hay ||
  match hay with
  | EmptyString => false
  | String _ t => contains needle t
  end.

(** [re.split(r"\s{2,}", s)]: the fields between the maximal runs of two or
    more blanks; a single blank stays inside its field.  The scan keeps the
    field being read and the blanks seen since its last character, both
    reversed. *)
Record split_state : Type := {
  sp_done : list string;
  sp_field : list ascii;
  sp_blanks : list ascii
}.

Definition split_close (st : split_state) : list string :=
  sp_done st ++ [string_of_list_ascii (rev (sp_field st))].

Definition split_step (st : split_state) (c : ascii) : split_state :=
  if is_space c then
    {| sp_done := sp_done st; sp_field := sp_field st; sp_blanks := c :: sp_blanks st |}
  else
    match sp_blanks st with
    | [] => {| sp_done := sp_done st; sp_field := c :: sp_field st; sp_blanks := [] |}
    | [b] => {| sp_done := sp_done st; sp_field := c :: b :: sp_field st; sp_blanks := [] |}
    | _ => {| sp_done := split_close st; sp_field := [c]; sp_blanks := [] |}
    end.

Definition split_blanks2 (s : string) : list string :=
  let st := fold_left split_step (list_ascii_of_string s)
              {| sp_done := []; sp_field := []; sp_blanks := [] |} in
  match sp_blanks st with
  | [] => split_close st
  | [b] => sp_done st ++ [string_of_list_ascii (rev (b :: sp_field st))]
  | _ => split_close st ++ [""]
  end.

(** [re.findall(r"[\d\.\-]+", s)]: the maximal runs of characters of the
    class, left to right. *)
Definition findall_step (st : list string * list ascii) (c : ascii)
  : list string * list ascii :=
  let '(found, run) := st in
  if is_numchar c then (found, c :: run)
  else
    match run with
    | [] => (found, [])
    | _ => (found ++ [string_of_list_ascii (rev run)], [])
    end.

Definition findall_numeric (s : string) : list string :=
  let '(found, run) := fold_left findall_step (list_ascii_of_string s) ([], []) in
  match run with
  | [] => found
  | _ => found ++ [string_of_list_ascii (rev run)]
  end.

(** [re.match(r"\s*(\d+)\s+(([\d\.\-]+)\s+)+", s)] as a truth value.  Each
    repetition is followed by a class disjoint from its own, so giving back
    characters never helps and the greedy reading decides: blanks, at least
    one digit, at least one blank, at least one character of the numeric
    class, and a blank right after it (the first round of the outer [+]). *)
Definition match_data_row (s : string) : bool :=
  let l0 := drop_while is_space (list_ascii_of_string s) in
  let l1 := drop_while is_digit l0 in
  let l2 := drop_while is_space l1 in
  let l3 := drop_while is_numchar l2 in
  negb (Nat.eqb (length l1) (length l0)) &&
  negb (Nat.eqb (length l2) (length l1)) &&
  negb (Nat.eqb (length l3) (length l2)) &&
  match l3 with
  | c :: _ => is_space c
  | [] => false
  end.

(** ** [float(token)] on the tokens of [findall_numeric]

    Such a token holds digits, dots and minus signs only.  Python accepts
    an optional sign followed by digits with at most one dot and at least one
    digit, and returns the decimal value rounded to the nearest binary64
    (ties to even); anything else raises [ValueError]. *)

Definition digit_value (c : ascii) : Z := Z.of_nat (nat_of_ascii c) - 48.

Definition digits_value (l : list ascii) : Z :=
  fold_left (fun acc c => 10 * acc + digit_value c)%Z l 0%Z.

Definition py_float (tok : string) : Res float :=
  let l := list_ascii_of_string tok in
  let '(neg, body) :=
    match l with
    | c :: t => if Ascii.eqb c "-" then (true, t) else (false, l)
    | [] => (false, l)
    end in
  let int_part := take_while is_digit body in
  let rest := drop_while is_digit body in
  let frac :=
    match rest with
    | [] => Some []
    | c :: t =>
        if Ascii.eqb c "." && forallb is_digit t then Some t else None
    end in
  match frac with
  | None => raise ValueError
  | Some frac_part =>
      match int_part ++ frac_part with
      | [] => raise ValueError
      | ds =>
          let m := digits_value ds in
          let k := Z.of_nat (length frac_part) in
          match m with
          | Zpos p =>
              ret (SF2Prim (SFdiv prec emax
                              (S754_finite neg p 0)
                              (S754_finite false (Z.to_pos (10 ^ k)) 0)))
          | _ => ret (if neg then PrimFloat.neg_zero else PrimFloat.zero)
          end
      end
  end.

(** [float(n)] for a length [n]. *)
Definition float_of_nat (n : nat) : float :=
  SF2Prim (binary_normalize prec emax (Z.of_nat n) 0 false).

(** ** pymatgen objects, as far as the module reads them *)

(** A site of an ordered structure: the element symbol and the oxidation
    state its species is decorated with, if any. *)
Record Site : Type := {
  element : string;
  oxi_state : option Z;
  frac_coords : list float
}.

(** [site.species_string]: the bare symbol, or the symbol followed by the
    magnitude and sign of the oxidation state ("Mn3+", "O2-"). *)
Definition species_string (s : Site) : string :=
  match oxi_state s with
  | None => element s
  | Some o =>
      element s +:+ pretty (Z.abs o) +:+ (if Z.ltb o 0 then "-" else "+")
  end.

(** A structure: its sites in order, and [site_properties], a dict from a
    property name to the list of that property's values, one per site. *)
Record pmg_structure : Type := {
  sites : list Site;
  site_properties : gmap string (list float)
}.

Definition strip_site (s : Site) : Site :=
  {| element := element s; oxi_state := None; frac_coords := frac_coords s |}.

Definition decorate_site (s : Site) (ox : Z) : Site :=
  {| element := element s; oxi_state := Some ox; frac_coords := frac_coords s |}.

(** [Oszicar.ionic_steps]: one dict of named quantities per ionic step. *)
Record Oszicar : Type := {
  osz_ionic_steps : list (gmap string float)
}.

(** One entry of [Vasprun.ionic_steps]; its ["stress"] key may be missing. *)
Module Step.
Record t : Type := {
  structure : pmg_structure;
  e_0_energy : float;
  forces : list (list float);
  stress : option (list (list float));
  electronic_steps : list (gmap string float)
}.
End Step.

Record Vasprun : Type := {
  ionic_steps : list Step.t;
  parameters : gmap string Z
}.

(** The dict [parse_vasp_dir] returns; ["stress"] is [None] or a list. *)
Module Dataset.
Record t : Type := {
  structure : list pmg_structure;
  uncorrected_total_energy : list float;
  energy_per_atom : list float;
  force : list (list (list float));
  magmom : list (list float);
  stress : option (list (list (list float)))
}.
End Dataset.

(** What lies outside the function: the file system and the library calls
    on it.  Each call returns or raises. *)
Record World : Type := {
  path_exists : string -> bool;
  read_oszicar : string -> Res Oszicar;
  read_vasprun : string -> Res Vasprun;
  (** [monty.io.reverse_readfile]: the lines of the file, last line first *)
  reverse_readfile : string -> Res (list string);
  (** [chgnet.utils.write_json] applied to the dataset whose structures
      have been turned into dicts, and a path *)
  write_json : Dataset.t -> string -> Res unit
}.

(** ** [parse_vasp_dir], lines 32-44: locating the three files *)

Record vasp_paths : Type := {
  oszicar_path : string;
  vasprun_path : string;
  outcar_path : string
}.

Definition no_data (file_root : string) : exn :=
  RuntimeError ("No data parsed from " +:+ file_root +:+ "!").

Definition locate_files (w : World) (file_root : string) : Res vasp_paths :=
  if negb (path_exists w file_root) then
    raise (FileNotFoundError "No such file or directory")
  else if path_exists w (file_root +:+ "/OSZICAR") then
    ret {| oszicar_path := file_root +:+ "/OSZICAR";
           vasprun_path := file_root +:+ "/vasprun.xml";
           outcar_path := file_root +:+ "/OUTCAR" |}
  else if path_exists w (file_root +:+ "/OSZICAR") then
    ret {| oszicar_path := file_root +:+ "/OSZICAR.gz";
           vasprun_path := file_root +:+ "/vasprun.xml.gz";
           outcar_path := file_root +:+ "/OUTCAR.gz" |}
  else raise (no_data file_root).

(** ** Lines 56-125: the scan of the OUTCAR lines *)

(** A table row: [dict(zip(header, tokens))], later keys overriding. *)
Definition dict_of_pairs (l : list (string * float)) : gmap string float :=
  fold_left (fun m kv => <[kv.1 := kv.2]> m) l ∅.

(** [l.pop(0)], keeping the rest. *)
Definition pop0 {A} (l : list A) : Res (list A) :=
  match l with
  | [] => raise IndexError
  | _ :: t => ret t
  end.

(** The local variables of the loop.  Python appends the list object bound
    to [mag_x] to [mag_x_all]; the object is never changed afterwards,
    because rows are added to [mag_x] only while [read_mag_x] holds, and
    [read_mag_x] is set only where [mag_x] is bound to a new list.  So lists
    are values here. *)
Record scan_state : Type := {
  charge : list (gmap string float);
  mag_x : list (gmap string float);
  mag_y : list (gmap string float);
  mag_z : list (gmap string float);
  header : list string;
  read_charge : bool;
  read_mag_x : bool;
  read_mag_y : bool;
  read_mag_z : bool;
  mag_x_all : list (list (gmap string float));
  ion_step_count : Z
}.

Definition scan_init : scan_state :=
  {| charge := []; mag_x := []; mag_y := []; mag_z := []; header := [];
     read_charge := false; read_mag_x := false;
     read_mag_y := false; read_mag_z := false;
     mag_x_all := []; ion_step_count := 0 |}.

Definition reading (st : scan_state) : bool :=
  read_charge st || read_mag_x st || read_mag_y st || read_mag_z st.

(** Lines 78-79. *)
Definition count_step (st : scan_state) (clean : string) : scan_state :=
  if contains "magnetization (x)" clean then
    {| charge := charge st; mag_x := mag_x st; mag_y := mag_y st;
       mag_z := mag_z st; header := header st;
       read_charge := read_charge st; read_mag_x := read_mag_x st;
       read_mag_y := read_mag_y st; read_mag_z := read_mag_z st;
       mag_x_all := mag_x_all st;
       ion_step_count := ion_step_count st + 1 |}
  else st.

Definition set_header (st : scan_state) (h : list string) : scan_state :=
  {| charge := charge st; mag_x := mag_x st; mag_y := mag_y st;
     mag_z := mag_z st; header := h;
     read_charge := read_charge st; read_mag_x := read_mag_x st;
     read_mag_y := read_mag_y st; read_mag_z := read_mag_z st;
     mag_x_all := mag_x_all st; ion_step_count := ion_step_count st |}.

(** Lines 89-96: the row goes to the table of the first flag that holds. *)
Definition add_row (st : scan_state) (r : gmap string float) : scan_state :=
  let c := read_charge st in
  let x := negb c && read_mag_x st in
  let y := negb c && negb (read_mag_x st) && read_mag_y st in
  let z := negb c && negb (read_mag_x st) && negb (read_mag_y st) && read_mag_z st in
  {| charge := if c then charge st ++ [r] else charge st;
     mag_x := if x then mag_x st ++ [r] else mag_x st;
     mag_y := if y then mag_y st ++ [r] else mag_y st;
     mag_z := if z then mag_z st ++ [r] else mag_z st;
     header := header st;
     read_charge := read_charge st; read_mag_x := read_mag_x st;
     read_mag_y := read_mag_y st; read_mag_z := read_mag_z st;
     mag_x_all := mag_x_all st; ion_step_count := ion_step_count st |}.

(** Lines 98-103. *)
Definition close_table (st : scan_state) : scan_state :=
  {| charge := charge st; mag_x := mag_x st; mag_y := mag_y st;
     mag_z := mag_z st; header := header st;
     read_charge := false; read_mag_x := false;
     read_mag_y := false; read_mag_z := false;
     mag_x_all :=
       if Z.eqb (ion_step_count st) (Z.of_nat (length (mag_x_all st)) + 1)
       then mag_x_all st ++ [mag_x st] else mag_x_all st;
     ion_step_count := ion_step_count st |}.

(** Lines 80-103. *)
Definition read_block (st : scan_state) (clean : string) : Res scan_state :=
  if reading st then
    if startswith clean "# of ion" then
      do h <- pop0 (split_blanks2 (strip clean));
      ret (set_header st h)
    else if match_data_row clean then
      do floats <- mapM py_float (findall_numeric clean);
      do tokens <- pop0 floats;
      ret (add_row st (dict_of_pairs (combine (header st) tokens)))
    else if startswith clean "tot" then ret (close_table st)
    else ret st
  else ret st.

Definition set_flags (st : scan_state) (c x y z : bool) : scan_state :=
  {| charge := charge st; mag_x := mag_x st; mag_y := mag_y st;
     mag_z := mag_z st; header := header st;
     read_charge := c; read_mag_x := x; read_mag_y := y; read_mag_z := z;
     mag_x_all := mag_x_all st; ion_step_count := ion_step_count st |}.

(** Lines 104-125. *)
Definition switch_mode (st : scan_state) (clean : string) : scan_state :=
  if String.eqb clean "total charge" then set_flags st true false false false
  else if String.eqb clean "magnetization (x)" then
    {| charge := charge st; mag_x := []; mag_y := mag_y st;
       mag_z := mag_z st; header := header st;
       read_charge := false; read_mag_x := true;
       read_mag_y := false; read_mag_z := false;
       mag_x_all := mag_x_all st; ion_step_count := ion_step_count st |}
  else if String.eqb clean "magnetization (y)" then
    {| charge := charge st; mag_x := mag_x st; mag_y := [];
       mag_z := mag_z st; header := header st;
       read_charge := false; read_mag_x := false;
       read_mag_y := true; read_mag_z := false;
       mag_x_all := mag_x_all st; ion_step_count := ion_step_count st |}
  else if String.eqb clean "magnetization (z)" then
    {| charge := charge st; mag_x := mag_x st; mag_y := mag_y st;
       mag_z := []; header := header st;
       read_charge := false; read_mag_x := false;
       read_mag_y := false; read_mag_z := true;
       mag_x_all := mag_x_all st; ion_step_count := ion_step_count st |}
  else if contains "electrostatic" clean then set_flags st false false false false
  else st.

(** The body of the loop of line 77. *)
Definition scan_line (st : scan_state) (clean : string) : Res scan_state :=
  do st' <- read_block (count_step st clean) clean;
  ret (switch_mode st' clean).

Fixpoint scan_from (st : scan_state) (all_lines : list string) : Res scan_state :=
  match all_lines with
  | [] => ret st
  | clean :: rest => do st' <- scan_line st clean; scan_from st' rest
  end.

(** Lines 63-67: the lines come last first, are stripped one by one, and
    the list is reversed in place. *)
Definition collect_lines (reversed_file : list string) : list string :=
  rev (map strip reversed_file).

(** ** Lines 127-130: aligning the tables with the OSZICAR steps *)

(** [l.pop(-1)], keeping the rest. *)
Definition pop_last {A} (l : list A) : Res (list A) :=
  match l with
  | [] => raise IndexError
  | _ => ret (removelast l)
  end.

(** The printed lines and the table list after the statement. *)
Definition align_tables (oszicar : Oszicar)
    (tables : list (list (gmap string float)))
  : list string * Res (list (list (gmap string float))) :=
  if Z.eqb (Z.of_nat (length (osz_ionic_steps oszicar))) (Z.of_nat (length tables))
  then (["Unfinished OUTCAR"], ret tables)
  else if Z.eqb (Z.of_nat (length (osz_ionic_steps oszicar)))
                (Z.of_nat (length tables) - 1)
  then ([], pop_last tables)
  else ([], ret tables).

(** ** Lines 132-160: assembling the dataset *)

(** Lines 134-141: the empty dataset; its "stress" entry is a list only if
    the first step has a stress. *)
Definition empty_dataset (first : Step.t) : Dataset.t :=
  {| Dataset.structure := [];
     Dataset.uncorrected_total_energy := [];
     Dataset.energy_per_atom := [];
     Dataset.force := [];
     Dataset.magmom := [];
     Dataset.stress :=
       match Step.stress first with
       | None => None
       | Some _ => Some []
       end |}.

(** Lines 132-141: [n_atoms] and the dataset both read [ionic_steps[0]]. *)
Definition dataset_init (v : Vasprun) : Res (nat * Dataset.t) :=
  match ionic_steps v with
  | [] => raise IndexError
  | first :: _ =>
      ret (length (sites (Step.structure first)), empty_dataset first)
  end.

(** Lines 144-147: the condition under which a step is skipped; [and]
    reads the NELM parameter only when the flag is set. *)
Definition exhausted (check_electronic_convergence : bool) (v : Vasprun)
    (ionic_step : Step.t) : Res bool :=
  if check_electronic_convergence then
    match parameters v !! "NELM" with
    | None => raise (KeyError "NELM")
    | Some nelm =>
        ret (Z.leb nelm (Z.of_nat (length (Step.electronic_steps ionic_step))))
    end
  else ret false.

(** Line 152. *)
Definition per_atom (e : float) (n_atoms : nat) : Res float :=
  match n_atoms with
  | O => raise ZeroDivisionError
  | _ => ret (PrimFloat.div e (float_of_nat n_atoms))
  end.

(** Line 155: [[site["tot"] for site in mag_x_all[index]]]. *)
Definition tot_column (tables : list (list (gmap string float))) (index : nat)
  : Res (list float) :=
  match tables !! index with
  | None => raise IndexError
  | Some table =>
      mapM (fun site : gmap string float =>
              match site !! "tot" with
              | Some x => ret x
              | None => raise (KeyError "tot")
              end) table
  end.

(** Lines 144-157, one round of the loop. *)
Definition assemble_step (check_electronic_convergence : bool) (v : Vasprun)
    (n_atoms : nat) (tables : list (list (gmap string float)))
    (dataset : Dataset.t) (index : nat) (ionic_step : Step.t) : Res Dataset.t :=
  do skip <- exhausted check_electronic_convergence v ionic_step;
  if skip then ret dataset
  else
    do epa <- per_atom (Step.e_0_energy ionic_step) n_atoms;
    do mags <-
      match tables with
      | [] => ret (Dataset.magmom dataset)
      | _ => do col <- tot_column tables index;
             ret (Dataset.magmom dataset ++ [col])
      end;
    do str <-
      match Step.stress ionic_step with
      | None => ret (Dataset.stress dataset)
      | Some s =>
          match Dataset.stress dataset with
          | None => raise AttributeError
          | Some l => ret (Some (l ++ [s]))
          end
      end;
    ret {| Dataset.structure :=
             Dataset.structure dataset ++ [Step.structure ionic_step];
           Dataset.uncorrected_total_energy :=
             Dataset.uncorrected_total_energy dataset ++ [Step.e_0_energy ionic_step];
           Dataset.energy_per_atom := Dataset.energy_per_atom dataset ++ [epa];
           Dataset.force := Dataset.force dataset ++ [Step.forces ionic_step];
           Dataset.magmom := mags;
           Dataset.stress := str |}.

(** The loop of line 143 over [enumerate(ionic_steps)], from [index] on. *)
Fixpoint assemble_from (check_electronic_convergence : bool) (v : Vasprun)
    (n_atoms : nat) (tables : list (list (gmap string float)))
    (index : nat) (steps : list Step.t) (dataset : Dataset.t) : Res Dataset.t :=
  match steps with
  | [] => ret dataset
  | ionic_step :: rest =>
      do dataset' <- assemble_step check_electronic_convergence v n_atoms
                       tables dataset index ionic_step;
      assemble_from check_electronic_convergence v n_atoms tables
        (S index) rest dataset'
  end.

(** Lines 132-166. *)
Definition build_dataset (w : World) (file_root : string)
    (check_electronic_convergence : bool) (save_path : option string)
    (v : Vasprun) (tables : list (list (gmap string float))) : Res Dataset.t :=
  do init <- dataset_init v;
  do dataset <- assemble_from check_electronic_convergence v init.1 tables
                  0 (ionic_steps v) init.2;
  match Dataset.uncorrected_total_energy dataset with
  | [] => raise (no_data file_root)
  | _ =>
      match save_path with
      | None => ret dataset
      | Some path => do _ <- write_json w dataset path; ret dataset
      end
  end.

(** Lines 46-125: the two library parses, then the scan. *)
Definition read_inputs (w : World) (p : vasp_paths)
  : Res (Oszicar * Vasprun * scan_state) :=
  do oszicar <- read_oszicar w (oszicar_path p);
  do vasprun_orig <- read_vasprun w (vasprun_path p);
  do reversed_file <- reverse_readfile w (outcar_path p);
  do st <- scan_from scan_init (collect_lines reversed_file);
  ret (oszicar, vasprun_orig, st).

(** Lines 32-125. *)
Definition inputs_of (w : World) (file_root : string)
  : Res (Oszicar * Vasprun * scan_state) :=
  do p <- locate_files w file_root; read_inputs w p.

(** [parse_vasp_dir]: what it prints, and what it returns or raises. *)
Definition parse_vasp_dir (w : World) (file_root : string)
    (check_electronic_convergence : bool) (save_path : option string)
  : list string * Res Dataset.t :=
  match inputs_of w file_root with
  | inl e => ([], inl e)
  | inr (oszicar, vasprun_orig, st) =>
      let '(printed, aligned) := align_tables oszicar (mag_x_all st) in
      (printed,
       do tables <- aligned;
       build_dataset w file_root check_electronic_convergence save_path
         vasprun_orig tables)
  end.

(** ** [solve_charge_by_mag] *)

(** [x or d] for a dict argument: [None] and the empty dict give [d]. *)
Definition dict_or {V} (x : option (gmap string V)) (d : gmap string V)
  : gmap string V :=
  match x with
  | None => d
  | Some m => match map_to_list m with [] => d | _ => m end
  end.

Definition default_ox_default : gmap string Z :=
  <["Li" := 1%Z]> (<["O" := (-2)%Z]> ∅).

(** The table of the docstring, in the order it is written. *)
Definition mn_ranges : list (float * float * Z) :=
  [ (0.5%float, 1.5%float, 2%Z); (1.5%float, 2.5%float, 3%Z);
    (2.5%float, 3.5%float, 4%Z); (3.5%float, 4.2%float, 3%Z);
    (4.2%float, 5%float, 2%Z) ].

Definition ox_ranges_default : gmap string (list (float * float * Z)) :=
  <["Mn" := mn_ranges]> ∅.

(** Lines 201-203. *)
Definition get_magmoms (s : pmg_structure) : option (list float) :=
  match site_properties s !! "final_magmom" with
  | Some l => Some l
  | None => site_properties s !! "magmom"
  end.

(** [magmoms[idx]]: subscripting [None] is a [TypeError]. *)
Definition magmom_at (magmoms : option (list float)) (idx : nat) : Res float :=
  match magmoms with
  | None => raise TypeError
  | Some l =>
      match l !! idx with
      | None => raise IndexError
      | Some m => ret m
      end
  end.

(** [min_mag <= m < max_mag] *)
Definition in_range (min_mag max_mag m : float) : bool :=
  PrimFloat.leb min_mag m && PrimFloat.ltb m max_mag.

(** Lines 208-212: the inner loop; the moment is read at every round. *)
Fixpoint range_lookup (table : list (float * float * Z))
    (magmoms : option (list float)) (idx : nat) : Res (option Z) :=
  match table with
  | [] => ret None
  | (min_mag, max_mag, mag_ox) :: rest =>
      do m <- magmom_at magmoms idx;
      if in_range min_mag max_mag m then ret (Some mag_ox)
      else range_lookup rest magmoms idx
  end.

(** Lines 206-215: the state a site resolves to, if any. *)
Definition site_ox (ox_ranges : gmap string (list (float * float * Z)))
    (default_ox : gmap string Z) (magmoms : option (list float))
    (idx : nat) (site : Site) : Res (option Z) :=
  match ox_ranges !! species_string site with
  | Some table => range_lookup table magmoms idx
  | None => ret (default_ox !! species_string site)
  end.

(** Lines 205-217: the loop, carrying [ox_list] and [solved_ox]. *)
Fixpoint solve_sites (ox_ranges : gmap string (list (float * float * Z)))
    (default_ox : gmap string Z) (magmoms : option (list float))
    (idx : nat) (l : list Site) (ox_list : list Z) (solved_ox : bool)
  : Res (list Z * bool) :=
  match l with
  | [] => ret (ox_list, solved_ox)
  | site :: rest =>
      do r <- site_ox ox_ranges default_ox magmoms idx site;
      match r with
      | Some ox =>
          solve_sites ox_ranges default_ox magmoms (S idx) rest
            (ox_list ++ [ox]) solved_ox
      | None =>
          solve_sites ox_ranges default_ox magmoms (S idx) rest ox_list false
      end
  end.

(** [Structure.remove_oxidation_states], on the object itself. *)
Definition remove_oxidation_states (s : pmg_structure) : pmg_structure :=
  {| sites := map strip_site (sites s); site_properties := site_properties s |}.

(** [Structure.add_oxidation_state_by_site]: one state per site, else
    [ValueError]. *)
Definition add_oxidation_state_by_site (ox_list : list Z) (s : pmg_structure)
  : Res pmg_structure :=
  if Nat.eqb (length ox_list) (length (sites s)) then
    ret {| sites := zip_with decorate_site (sites s) ox_list;
           site_properties := site_properties s |}
  else raise ValueError.

Definition sum_Z (l : list Z) : Z := fold_left Z.add l 0%Z.

#[global] Instance pmg_structure_inhabited : Inhabited pmg_structure :=
  populate {| sites := []; site_properties := ∅ |}.

(** Structures are objects: the store is the list of the live ones and a
    reference is a position in it.  [structure.copy()] makes a new object;
    the two methods above change the object they are called on.  The result
    is the store afterwards, the printed lines, and the returned reference
    ([None] for Python's [None]) or the exception. *)
Definition solve_charge_by_mag (store : list pmg_structure) (structure : nat)
    (default_ox : option (gmap string Z))
    (ox_ranges : option (gmap string (list (float * float * Z))))
  : list pmg_structure * list string * Res (option nat) :=
  let out_structure := length store in
  let store1 := store ++ [store !!! structure] in
  let store2 := alter remove_oxidation_states out_structure store1 in
  let default_ox := dict_or default_ox default_ox_default in
  let ox_ranges := dict_or ox_ranges ox_ranges_default in
  let magmoms := get_magmoms (store2 !!! structure) in
  match solve_sites ox_ranges default_ox magmoms 0
          (sites (store2 !!! out_structure)) [] true with
  | inl e => (store2, [], inl e)
  | inr (ox_list, solved_ox) =>
      if solved_ox then
        let printed :=
          ["Solved oxidation state, total_charge=" +:+ pretty (sum_Z ox_list)] in
        match add_oxidation_state_by_site ox_list (store2 !!! out_structure) with
        | inl e => (store2, printed, inl e)
        | inr decorated =>
            (<[out_structure := decorated]> store2, printed,
             ret (Some out_structure))
        end
      else (store2, ["Failed to solve oxidation state"], ret None)
  end.

(** ** Sample runs

    A two-atom cell, the OUTCAR text VASP prints for it at every ionic step,
    and worlds that hold a run directory "run". *)

Definition sample_site (el : string) (x : float) : Site :=
  {| element := el; oxi_state := None; frac_coords := [x; x; x] |}.

Definition sample_structure : pmg_structure :=
  {| sites := [sample_site "Mn" 0%float; sample_site "O" 0.5%float];
     site_properties := <["magmom" := [3.5%float; 0%float]]> ∅ |}.

(** An ionic step that took [n] electronic steps. *)
Definition sample_step (n : nat) : Step.t :=
  {| Step.structure := sample_structure;
     Step.e_0_energy := (-10.5)%float;
     Step.forces := [[0%float; 0%float; 0%float]; [0%float; 0%float; 0%float]];
     Step.stress := None;
     Step.electronic_steps := replicate n ∅ |}.

Definition sample_vasprun (steps : list Step.t) : Vasprun :=
  {| ionic_steps := steps; parameters := <["NELM" := 60%Z]> ∅ |}.

Definition sample_oszicar (n : nat) : Oszicar :=
  {| osz_ionic_steps := replicate n ∅ |}.

Definition outcar_block : list string :=
  [ " total charge"; "";
    "# of ion       s       p       d       tot";
    "------------------------------------------";
    "    1        2.101   6.201   5.301  13.603";
    "    2        1.502   3.402   0.000   4.904";
    "--------------------------------------------------";
    "tot          3.603   9.603   5.301  18.507"; "";
    " magnetization (x)"; "";
    "# of ion       s       p       d       tot";
    "------------------------------------------";
    "    1        0.012   0.034   3.454   3.500";
    "    2        0.001  -0.021   0.000  -0.020";
    "--------------------------------------------------";
    "tot          0.013   0.013   3.454   3.480"; "" ].

(** The OUTCAR of a run that printed [n] ionic steps. *)
Definition sample_outcar (n : nat) : list string :=
  concat (replicate n outcar_block).

(** A world in which exactly the paths of [present] exist; each of the three
    readers gives the content below for a path that exists. *)
Definition sample_world (present : list string) (oszicar : Oszicar)
    (v : Vasprun) (outcar : list string) : World :=
  {| path_exists := fun path => existsb (String.eqb path) present;
     read_oszicar := fun path =>
       if existsb (String.eqb path) present then ret oszicar
       else raise (FileNotFoundError path);
     read_vasprun := fun path =>
       if existsb (String.eqb path) present then ret v
       else raise (FileNotFoundError path);
     reverse_readfile := fun path =>
       if existsb (String.eqb path) present then ret (rev outcar)
       else raise (FileNotFoundError path);
     write_json := fun _ _ => ret tt |}.

Definition plain_names : list string :=
  ["run"; "run/OSZICAR"; "run/vasprun.xml"; "run/OUTCAR"].

Definition compressed_names : list string :=
  ["run"; "run/OSZICAR.gz"; "run/vasprun.xml.gz"; "run/OUTCAR.gz"].

(** A finished run of two ionic steps: the OUTCAR holds one table more than
    the OSZICAR has steps.  The second step used up its NELM = 60 electronic
    steps. *)
Definition finished_run (present : list string) : World :=
  sample_world present (sample_oszicar 2)
    (sample_vasprun [sample_step 12; sample_step 60]) (sample_outcar 3).

(** A run whose OSZICAR has four steps while the OUTCAR holds one table,
    with [steps] in the vasprun.xml. *)
Definition short_outcar_run (steps : list Step.t) : World :=
  sample_world plain_names (sample_oszicar 4) (sample_vasprun steps)
    (sample_outcar 1).


(** Scanner states: a magnetization-x table being read after one marker. *)
Definition reading_mag_x : scan_state :=
  {| charge := []; mag_x := [dict_of_pairs [("tot", 3.5%float)]];
     mag_y := []; mag_z := []; header := ["tot"];
     read_charge := false; read_mag_x := true;
     read_mag_y := false; read_mag_z := false;
     mag_x_all := []; ion_step_count := 1 |}.

(** Structures for the solver: a decorated one with moments, and one with a
    manganese site and no moment at all. *)
Definition decorated_structure : pmg_structure :=
  {| sites := [ {| element := "Mn"; oxi_state := Some 4%Z; frac_coords := [] |};
                {| element := "O"; oxi_state := Some (-2)%Z; frac_coords := [] |};
                {| element := "Li"; oxi_state := None; frac_coords := [] |} ];
     site_properties := <["final_magmom" := [3.5%float; 0%float; 0%float]]> ∅ |}.

Definition no_moment_structure : pmg_structure :=
  {| sites := [sample_site "Mn" 0%float; sample_site "O" 0.5%float];
     site_properties := ∅ |}.

Definition unknown_element_structure : pmg_structure :=
  {| sites := [sample_site "Mn" 0%float; sample_site "Fe" 0.5%float];
     site_properties := <["magmom" := [3.5%float; 2%float]]> ∅ |}.

(** The scanner state the short OUTCAR leaves behind. *)
Definition short_outcar_scan : scan_state :=
  match scan_from scan_init (collect_lines (rev (sample_outcar 1))) with
  | inr st => st
  | inl _ => scan_init
  end.

Definition finished_scan : scan_state :=
  match scan_from scan_init (collect_lines (rev (sample_outcar 3))) with
  | inr st => st
  | inl _ => scan_init
  end.

(** The dataset of the finished run, with the convergence check on. *)
Definition finished_dataset : Dataset.t :=
  match (parse_vasp_dir (finished_run plain_names) "run" true None).2 with
  | inr d => d
  | inl _ => empty_dataset (sample_step 0)
  end.

(** ** Notions used in the statements *)



(** A step is kept when the test of lines 144-147 does not skip it. *)
Definition kept (check_electronic_convergence : bool) (v : Vasprun)
    (ionic_step : Step.t) : bool :=
  match exhausted check_electronic_convergence v ionic_step with
  | inr true => false
  | _ => true
  end.

(** The claim's reading of the filter: with the check on, a step is included
    when its electronic steps are fewer than NELM. *)
Definition included_by_spec (check_electronic_convergence : bool) (nelm : Z)
    (ionic_step : Step.t) : bool :=
  if check_electronic_convergence
  then Z.ltb (Z.of_nat (length (Step.electronic_steps ionic_step))) nelm
  else true.


(** How many of the four reading flags are set. *)
Definition flags_set (st : scan_state) : nat :=
  Nat.b2n (read_charge st) + Nat.b2n (read_mag_x st) +
  Nat.b2n (read_mag_y st) + Nat.b2n (read_mag_z st).

(** [enumerate(l)], counting from [index]. *)
Fixpoint enumerate_from {A} (index : nat) (l : list A) : list (nat * A) :=
  match l with
  | [] => []
  | x :: t => (index, x) :: enumerate_from (S index) t
  end.

(** The text of a line given as a first word followed by cells, each cell
    being some blanks and a word: an atom index and its numbers, or the
    "# of ion" label and the column names. *)
Definition spaced_text (first : list ascii)
    (cells : list (list ascii * list ascii)) : string :=
  string_of_list_ascii
    (first ++ concat (map (fun c : list ascii * list ascii => c.1 ++ c.2) cells)).

(** A word that begins and ends with a character that is not a blank and in
    which no two blanks are adjacent. *)
Inductive spaced_word : list ascii -> Prop :=
  | word_end c : is_space c = false -> spaced_word [c]
  | word_char c l : is_space c = false -> spaced_word l -> spaced_word (c :: l)
  | word_blank c b l :
      is_space c = false -> is_space b = true -> spaced_word l ->
      spaced_word (c :: b :: l).

(** * Properties *)

(** ** Results *)

Lemma bind_inr {A B} (m : Res A) (k : A -> Res B) (b : B) :
  bind m k = inr b -> exists a, m = inr a /\ k a = inr b.
Proof. destruct m as [e | a]; simpl; [discriminate | eauto]. Qed.

Ltac bind_inv H :=
  let a := fresh "a" in
  let Ha := fresh "Ha" in
  apply bind_inr in H; destruct H as (a & Ha & H).

(** ** The scan of the OUTCAR lines *)

Section Scan.

Implicit Types (st : scan_state) (clean : string).


Lemma count_step_tables st clean :
  mag_x_all (count_step st clean) = mag_x_all st.
Proof. unfold count_step. destruct (contains _ clean); reflexivity. Qed.




(** They change the list of completed tables in the "tot" branch only,
    and there by at most one table. *)
Lemma read_block_tables st clean st' :
  read_block st clean = inr st' ->
  mag_x_all st' = mag_x_all st \/
  (mag_x_all st' = mag_x_all st ++ [mag_x st] /\
   ion_step_count st = (Z.of_nat (length (mag_x_all st)) + 1)%Z).
Proof.
  unfold read_block. intros H.
  destruct (reading st); [| inversion H; by left].
  destruct (startswith clean "# of ion").
  { bind_inv H. inversion H. by left. }
  destruct (match_data_row clean).
  { bind_inv H. bind_inv H. inversion H. by left. }
  destruct (startswith clean "tot"); inversion H; [| by left].
  simpl. destruct (Z.eqb_spec (ion_step_count st)
                     (Z.of_nat (length (mag_x_all st)) + 1)); auto.
Qed.


Lemma switch_mode_tables st clean :
  mag_x_all (switch_mode st clean) = mag_x_all st.
Proof. unfold switch_mode. repeat case_match; reflexivity. Qed.








End Scan.

(** ** Aligning the tables *)

Lemma align_surplus oszicar (tables : list (list (gmap string float))) :
  length tables = S (length (osz_ionic_steps oszicar)) ->
  align_tables oszicar tables = ([], inr (removelast tables)).
Proof.
  intros H. unfold align_tables.
  destruct (Z.eqb_spec (Z.of_nat (length (osz_ionic_steps oszicar)))
              (Z.of_nat (length tables))); [lia |].
  destruct (Z.eqb_spec (Z.of_nat (length (osz_ionic_steps oszicar)))
              (Z.of_nat (length tables) - 1)); [| lia].
  destruct tables; [discriminate | reflexivity].
Qed.

Lemma align_equal oszicar (tables : list (list (gmap string float))) :
  length tables = length (osz_ionic_steps oszicar) ->
  align_tables oszicar tables = (["Unfinished OUTCAR"], inr tables).
Proof.
  intros H. unfold align_tables.
  destruct (Z.eqb_spec (Z.of_nat (length (osz_ionic_steps oszicar)))
              (Z.of_nat (length tables))); [reflexivity | lia].
Qed.


Lemma removelast_surplus {A} (l : list A) (n : nat) :
  length l = S n ->
  length (removelast l) = n /\ exists x, l = removelast l ++ [x].
Proof.
  intros H. destruct (exists_last (l := l)) as (l' & x & ->).
  { intros ->. discriminate. }
  rewrite removelast_last. rewrite length_app in H. simpl in H.
  split; [lia | eauto].
Qed.

Lemma parse_after_inputs w file_root check save oszicar v st :
  inputs_of w file_root = inr (oszicar, v, st) ->
  parse_vasp_dir w file_root check save =
  (fst (align_tables oszicar (mag_x_all st)),
   do tables <- snd (align_tables oszicar (mag_x_all st));
   build_dataset w file_root check save v tables).
Proof.
  intros H. unfold parse_vasp_dir. rewrite H.
  by destruct (align_tables oszicar (mag_x_all st)).
Qed.

(** ** Assembling the dataset *)

Section Assemble.

Variables (check : bool) (v : Vasprun) (n_atoms : nat).
Variable tables : list (list (gmap string float)).

Lemma exhausted_kept s b :
  exhausted check v s = inr b -> kept check v s = negb b.
Proof. unfold kept. intros ->. by destruct b. Qed.


(** What one round adds to the columns that do not depend on the tables. *)
Lemma assemble_step_columns ds index s ds' :
  assemble_step check v n_atoms tables ds index s = inr ds' ->
  Dataset.structure ds' =
    Dataset.structure ds ++ (if kept check v s then [Step.structure s] else [])
  /\ Dataset.uncorrected_total_energy ds' =
    Dataset.uncorrected_total_energy ds ++
    (if kept check v s then [Step.e_0_energy s] else [])
  /\ Dataset.force ds' =
    Dataset.force ds ++ (if kept check v s then [Step.forces s] else []).
Proof.
  unfold assemble_step. intros H. bind_inv H.
  rewrite (exhausted_kept _ _ Ha). destruct a; simpl.
  - inversion H; subst. by rewrite !app_nil_r.
  - bind_inv H. bind_inv H. bind_inv H. by inversion H.
Qed.

Lemma assemble_from_columns steps : forall index ds ds',
  assemble_from check v n_atoms tables index steps ds = inr ds' ->
  Dataset.structure ds' =
    Dataset.structure ds ++ map Step.structure (List.filter (kept check v) steps)
  /\ Dataset.uncorrected_total_energy ds' =
    Dataset.uncorrected_total_energy ds ++
    map Step.e_0_energy (List.filter (kept check v) steps)
  /\ Dataset.force ds' =
    Dataset.force ds ++ map Step.forces (List.filter (kept check v) steps).
Proof.
  induction steps as [| s rest IH]; intros index ds ds' H; simpl in H.
  - inversion H; subst. simpl. by rewrite !app_nil_r.
  - bind_inv H.
    destruct (assemble_step_columns _ _ _ _ Ha) as (E1 & E2 & E3).
    destruct (IH _ _ _ H) as (F1 & F2 & F3).
    rewrite F1, F2, F3, E1, E2, E3. simpl.
    destruct (kept check v s); simpl; by rewrite <- !app_assoc.
Qed.




End Assemble.

(** ** The oxidation-state solver *)

Section Solver.

Variable ox_ranges : gmap string (list (float * float * Z)).
Variable default_ox : gmap string Z.

Lemma magmom_at_some (ms : list float) idx :
  idx < length ms -> exists m, magmom_at (Some ms) idx = inr m.
Proof.
  intros H. unfold magmom_at.
  destruct (lookup_lt_is_Some_2 ms idx H) as [m ->]. by eexists.
Qed.

(** The first interval that holds the moment decides. *)
Lemma range_lookup_first pre lo hi ox post (ms : list float) idx m :
  ms !! idx = Some m ->
  Forall (fun e : float * float * Z => in_range e.1.1 e.1.2 m = false) pre ->
  in_range lo hi m = true ->
  range_lookup (pre ++ (lo, hi, ox) :: post) (Some ms) idx = inr (Some ox).
Proof.
  intros Hm Hpre Hin.
  induction Hpre as [| [[lo' hi'] ox'] pre Hno _ IH]; simpl;
    unfold magmom_at; rewrite Hm; simpl.
  - by rewrite Hin.
  - simpl in Hno. rewrite Hno. exact IH.
Qed.

Lemma range_lookup_none table (ms : list float) idx m :
  ms !! idx = Some m ->
  Forall (fun e : float * float * Z => in_range e.1.1 e.1.2 m = false) table ->
  range_lookup table (Some ms) idx = inr None.
Proof.
  intros Hm Hall.
  induction Hall as [| [[lo' hi'] ox'] pre Hno _ IH]; simpl; [done |].
  unfold magmom_at. rewrite Hm. simpl. simpl in Hno. by rewrite Hno.
Qed.

Lemma range_lookup_total table (ms : list float) idx :
  idx < length ms -> exists r, range_lookup table (Some ms) idx = inr r.
Proof.
  intros H. destruct (magmom_at_some ms idx H) as [m Hm].
  induction table as [| [[lo hi] ox] rest IH]; cbn [range_lookup];
    [by eexists |].
  rewrite Hm. simpl. destruct (in_range lo hi m); [by eexists | exact IH].
Qed.

Lemma site_ox_total (ms : list float) idx site :
  idx < length ms ->
  exists r, site_ox ox_ranges default_ox (Some ms) idx site = inr r.
Proof.
  intros H. unfold site_ox.
  destruct (ox_ranges !! species_string site);
    [by apply range_lookup_total | by eexists].
Qed.


(** With a moment for every site the loop never raises, and one site
    without a state clears the flag for good. *)
Lemma solve_sites_fail (ms : list float) l : forall idx acc b,
  idx + length l <= length ms ->
  b = false \/
  (exists j site, l !! j = Some site /\
     site_ox ox_ranges default_ox (Some ms) (idx + j) site = inr None) ->
  exists acc',
    solve_sites ox_ranges default_ox (Some ms) idx l acc b = inr (acc', false).
Proof.
  induction l as [| site rest IH]; intros idx acc b Hlen Hbad; simpl.
  - destruct Hbad as [-> | (j & s & Hj & _)]; [by eexists | discriminate].
  - simpl in Hlen.
    destruct (site_ox_total ms idx site ltac:(lia)) as [r Hr].
    rewrite Hr. simpl. destruct r as [ox |].
    + apply IH; [lia |].
      destruct Hbad as [-> | (j & s & Hj & Hnone)]; [by left | right].
      destruct j as [| j].
      * simpl in Hj. inversion Hj; subst.
        rewrite Nat.add_0_r in Hnone. congruence.
      * exists j, s. split; [exact Hj |].
        by rewrite Nat.add_succ_r in Hnone.
    + apply IH; [lia | by left].
Qed.



End Solver.

(** ** The store *)

Lemma copy_then_strip (store : list pmg_structure) x :
  alter remove_oxidation_states (length store) (store ++ [x]) =
  store ++ [remove_oxidation_states x].
Proof.
  rewrite <- (Nat.add_0_r (length store)) at 1.
  by rewrite alter_app_r.
Qed.

Lemma store_set_last (store : list pmg_structure) x y :
  <[length store := y]> (store ++ [x]) = store ++ [y].
Proof.
  rewrite <- (Nat.add_0_r (length store)) at 1.
  by rewrite insert_app_r.
Qed.

Lemma store_get_last (store : list pmg_structure) x :
  (store ++ [x]) !!! length store = x.
Proof. by rewrite list_lookup_total_middle. Qed.

Lemma store_get_old (store : list pmg_structure) x r s :
  store !! r = Some s -> (store ++ [x]) !!! r = s.
Proof.
  intros H. apply list_lookup_total_correct. by apply lookup_app_l_Some.
Qed.

(** Whatever happens, the store afterwards is the store before with one
    object added at its end. *)
Lemma solve_store (store : list pmg_structure) structure default_ox ox_ranges :
  exists out,
    (solve_charge_by_mag store structure default_ox ox_ranges).1.1 =
    store ++ [out].
Proof.
  unfold solve_charge_by_mag. rewrite copy_then_strip.
  destruct (solve_sites _ _ _ _ _ _ _) as [e | [ox_list [|]]]; simpl;
    try by eexists.
  destruct (add_oxidation_state_by_site _ _); simpl; [by eexists |].
  rewrite store_set_last. by eexists.
Qed.

(** ** The whole of [parse_vasp_dir] *)

Lemma locate_files_without_oszicar w file_root :
  path_exists w file_root = true ->
  path_exists w (file_root +:+ "/OSZICAR") = false ->
  locate_files w file_root = inl (no_data file_root).
Proof. intros H1 H2. unfold locate_files. by rewrite H1, H2. Qed.

Lemma parse_returns w file_root check save printed d :
  parse_vasp_dir w file_root check save = (printed, inr d) ->
  exists oszicar v st tables,
    inputs_of w file_root = inr (oszicar, v, st) /\
    align_tables oszicar (mag_x_all st) = (printed, inr tables) /\
    build_dataset w file_root check save v tables = inr d.
Proof.
  unfold parse_vasp_dir. intros H.
  destruct (inputs_of w file_root) as [e | [[oszicar v] st]]; [discriminate |].
  destruct (align_tables oszicar (mag_x_all st)) as [out aligned] eqn:E.
  inversion H as [[Hp Hb]]. subst out. bind_inv Hb. subst aligned.
  by exists oszicar, v, st, a.
Qed.

Lemma build_dataset_returns w file_root check save v tables d :
  build_dataset w file_root check save v tables = inr d ->
  exists first rest,
    ionic_steps v = first :: rest /\
    assemble_from check v (length (sites (Step.structure first))) tables 0
      (ionic_steps v)
      (empty_dataset first) = inr d /\
    Dataset.uncorrected_total_energy d <> [].
Proof.
  unfold build_dataset, dataset_init. intros H.
  destruct (ionic_steps v) as [| first rest] eqn:E; [discriminate |].
  simpl in H. bind_inv H.
  exists first, rest. split; [reflexivity |].
  destruct (Dataset.uncorrected_total_energy a) eqn:En; [discriminate |].
  destruct save as [path |].
  - bind_inv H. inversion H; subst. by rewrite En.
  - inversion H; subst. by rewrite En.
Qed.

(** With the NELM parameter at hand, the loop's test is the claim's. *)
Lemma kept_included check v nelm s :
  parameters v !! "NELM" = Some nelm ->
  kept check v s = included_by_spec check nelm s.
Proof.
  intros Hn. unfold kept, exhausted, included_by_spec.
  destruct check; [| reflexivity]. rewrite Hn. simpl.
  rewrite Z.ltb_antisym. by destruct (Z.leb _ _).
Qed.

Lemma kept_unchecked v s : kept false v s = true.
Proof. reflexivity. Qed.

Lemma filter_all_true {A} (f : A -> bool) (l : list A) :
  (forall x, f x = true) -> List.filter f l = l.
Proof.
  intros H. induction l as [| x l IH]; simpl; [done |].
  by rewrite H, IH.
Qed.

(** A run whose steps are all skipped leaves the dataset as it was. *)
Lemma assemble_from_all_skipped check v n tables steps : forall index ds,
  Forall (fun s => exhausted check v s = inr true) steps ->
  assemble_from check v n tables index steps ds = inr ds.
Proof.
  induction steps as [| s rest IH]; intros index ds H; simpl; [done |].
  inversion H as [| ? ? Hs Hrest]; subst.
  unfold assemble_step. rewrite Hs. simpl. by apply IH.
Qed.

Lemma build_dataset_all_skipped w file_root check save v tables :
  ionic_steps v <> [] ->
  Forall (fun s => exhausted check v s = inr true) (ionic_steps v) ->
  build_dataset w file_root check save v tables = inl (no_data file_root).
Proof.
  intros Hne Hall. unfold build_dataset, dataset_init.
  destruct (ionic_steps v) as [| first rest] eqn:E; [done |].
  cbn [bind ret fst snd].
  by rewrite (assemble_from_all_skipped _ _ _ _ _ _ _ Hall).
Qed.


(** ** Binary64 comparisons at the ends of an interval *)

Lemma SFcompare_refl (x : spec_float) :
  x <> S754_nan -> SFcompare x x = Some Eq.
Proof.
  destruct x as [s | s | | s m e]; simpl; intros H;
    try destruct s; try congruence;
    by rewrite Z.compare_refl, Pos.compare_cont_refl.
Qed.

Lemma float_ltb_irrefl (x : float) : PrimFloat.ltb x x = false.
Proof.
  rewrite ltb_spec. unfold SFltb.
  destruct (Prim2SF x) as [s | s | | s m e] eqn:E; [| | reflexivity |];
    by rewrite SFcompare_refl.
Qed.

Lemma float_leb_refl (x y : float) :
  PrimFloat.ltb x y = true -> PrimFloat.leb x x = true.
Proof.
  rewrite ltb_spec, leb_spec. unfold SFltb, SFleb. intros H.
  destruct (Prim2SF x) as [s | s | | s m e] eqn:E;
    [| | discriminate |]; by rewrite SFcompare_refl.
Qed.

(** * The claims *)

(** C1.  The claim holds that a directory with OSZICAR.gz, vasprun.xml.gz and
    OUTCAR.gz but no OSZICAR is parsed from the compressed files.  The code
    tests for "OSZICAR" a second time where "OSZICAR.gz" is meant (line 39),
    so the branch that sets the compressed paths is never taken: on the
    finished sample run stored under the compressed names, [parse_vasp_dir]
    raises the "no data" error, while the same run stored under the plain
    names is parsed. *)
Theorem compressed_run_raises_no_data :
  path_exists (finished_run compressed_names) "run" = true /\
  path_exists (finished_run compressed_names) "run/OSZICAR.gz" = true /\
  path_exists (finished_run compressed_names) "run/vasprun.xml.gz" = true /\
  path_exists (finished_run compressed_names) "run/OUTCAR.gz" = true /\
  path_exists (finished_run compressed_names) "run/OSZICAR" = false /\
  parse_vasp_dir (finished_run compressed_names) "run" true None =
    ([], inl (RuntimeError "No data parsed from run!")) /\
  is_ok (parse_vasp_dir (finished_run plain_names) "run" true None).2 = true.
Proof. repeat apply conj; vm_compute; reflexivity. Qed.






(** C6.  After the scan, with N ionic steps in the OSZICAR: if N+1 tables
    were completed, nothing is printed and the dataset is built from the
    tables without the last one, which are N; if N tables were completed,
    the one line "Unfinished OUTCAR" is printed and the dataset is built from
    all of them. *)
Theorem surplus_table_is_dropped :
  forall w file_root check save oszicar v st,
    inputs_of w file_root = inr (oszicar, v, st) ->
    (length (mag_x_all st) = S (length (osz_ionic_steps oszicar)) ->
       parse_vasp_dir w file_root check save =
         ([], build_dataset w file_root check save v (removelast (mag_x_all st)))
       /\ length (removelast (mag_x_all st)) = length (osz_ionic_steps oszicar)
       /\ exists last, mag_x_all st = removelast (mag_x_all st) ++ [last])
    /\ (length (mag_x_all st) = length (osz_ionic_steps oszicar) ->
       parse_vasp_dir w file_root check save =
         (["Unfinished OUTCAR"],
          build_dataset w file_root check save v (mag_x_all st))).
Proof.
  intros w file_root check save oszicar v st Hin. split; intros Hlen.
  - rewrite (parse_after_inputs _ _ _ _ _ _ _ Hin), (align_surplus _ _ Hlen).
    split; [reflexivity |]. by apply removelast_surplus.
  - by rewrite (parse_after_inputs _ _ _ _ _ _ _ Hin), (align_equal _ _ Hlen).
Qed.

Lemma surplus_table_is_dropped_witness :
  inputs_of (finished_run plain_names) "run" =
    inr (sample_oszicar 2, sample_vasprun [sample_step 12; sample_step 60],
         finished_scan) /\
  length (mag_x_all finished_scan) = 3 /\
  length (osz_ionic_steps (sample_oszicar 2)) = 2 /\
  length (removelast (mag_x_all finished_scan)) = 2 /\
  parse_vasp_dir (finished_run plain_names) "run" true None =
    ([], build_dataset (finished_run plain_names) "run" true None
           (sample_vasprun [sample_step 12; sample_step 60])
           (removelast (mag_x_all finished_scan))).
Proof.
  assert (inputs_of (finished_run plain_names) "run" =
    inr (sample_oszicar 2, sample_vasprun [sample_step 12; sample_step 60],
         finished_scan)) as Hin by (vm_compute; reflexivity).
  assert (length (mag_x_all finished_scan) =
          S (length (osz_ionic_steps (sample_oszicar 2)))) as Hlen
    by (vm_compute; reflexivity).
  destruct (proj1 (surplus_table_is_dropped (finished_run plain_names) "run"
                     true None _ _ _ Hin) Hlen) as (Hp & Hl & _).
  split; [exact Hin |]. split; [vm_compute; reflexivity |].
  split; [reflexivity |]. split; [vm_compute; reflexivity |]. exact Hp.
Defined.

(** C8.  Whenever [parse_vasp_dir] returns a dataset, its structures,
    energies and forces are those of the ionic steps of the vasprun.xml, in
    order, that pass the filter: with the check on, the steps whose number of
    electronic steps is strictly below NELM; with the check off, all steps.
    The loop's own test (skip when the flag is set and the count is at least
    NELM) agrees with that reading step by step. *)
Theorem convergence_filter :
  forall w file_root check save printed d,
    parse_vasp_dir w file_root check save = (printed, inr d) ->
    exists oszicar v st nelm,
      inputs_of w file_root = inr (oszicar, v, st) /\
      (check = true -> parameters v !! "NELM" = Some nelm) /\
      (forall s, In s (ionic_steps v) ->
         kept check v s = included_by_spec check nelm s) /\
      Dataset.structure d =
        map Step.structure
          (List.filter (included_by_spec check nelm) (ionic_steps v)) /\
      Dataset.uncorrected_total_energy d =
        map Step.e_0_energy
          (List.filter (included_by_spec check nelm) (ionic_steps v)) /\
      Dataset.force d =
        map Step.forces
          (List.filter (included_by_spec check nelm) (ionic_steps v)) /\
      (check = false ->
         Dataset.structure d = map Step.structure (ionic_steps v)).
Proof.
  intros w file_root check save printed d H.
  destruct (parse_returns _ _ _ _ _ _ H) as (oszicar & v & st & tables & Hin & _ & Hb).
  destruct (build_dataset_returns _ _ _ _ _ _ _ Hb) as (first & rest & E & Ha & _).
  destruct (assemble_from_columns _ _ _ _ _ _ _ _ Ha) as (F1 & F2 & F3).
  simpl in F1, F2, F3.
  assert (check = true -> is_Some (parameters v !! "NELM")) as Hnelm.
  { intros ->. rewrite E in Ha. simpl in Ha. bind_inv Ha.
    unfold assemble_step in Ha0. bind_inv Ha0. unfold exhausted in Ha1.
    destruct (parameters v !! "NELM"); [by eexists | discriminate]. }
  exists oszicar, v, st, (default 0%Z (parameters v !! "NELM")).
  assert (forall s, kept check v s =
            included_by_spec check (default 0%Z (parameters v !! "NELM")) s)
    as Hk.
  { intros s. destruct check; [| reflexivity].
    destruct (Hnelm eq_refl) as [nelm Hn]. rewrite Hn.
    exact (kept_included true v nelm s Hn). }
  rewrite (filter_ext _ _ Hk) in F1, F2, F3.
  split; [exact Hin |]. split.
  { intros Hc. destruct (Hnelm Hc) as [nelm ->]. reflexivity. }
  split; [intros s _; apply Hk |].
  split; [exact F1 |]. split; [exact F2 |]. split; [exact F3 |].
  intros ->. rewrite F1. by rewrite filter_all_true.
Qed.

Lemma convergence_filter_witness :
  parse_vasp_dir (finished_run plain_names) "run" true None =
    ([], inr finished_dataset) /\
  exists oszicar v st nelm,
    inputs_of (finished_run plain_names) "run" = inr (oszicar, v, st) /\
    (true = true -> parameters v !! "NELM" = Some nelm) /\
    Dataset.structure finished_dataset =
      map Step.structure
        (List.filter (included_by_spec true nelm) (ionic_steps v)).
Proof.
  assert (parse_vasp_dir (finished_run plain_names) "run" true None =
          ([], inr finished_dataset)) as H by (vm_compute; reflexivity).
  split; [exact H |].
  destruct (convergence_filter _ _ _ _ _ _ H)
    as (oszicar & v & st & nelm & Hin & Hn & _ & Hs & _).
  exists oszicar, v, st, nelm.
  split; [exact Hin |]. split; [exact Hn | exact Hs].
Defined.





(** ** The whole of [solve_charge_by_mag] *)

(** With a live reference, the function is the loop over the stripped copy
    with the moments of the original, followed by the two endings. *)
Lemma solve_unfold (store : list pmg_structure) structure default_ox ox_ranges s :
  store !! structure = Some s ->
  solve_charge_by_mag store structure default_ox ox_ranges =
  match solve_sites (dict_or ox_ranges ox_ranges_default)
          (dict_or default_ox default_ox_default) (get_magmoms s) 0
          (sites (remove_oxidation_states s)) [] true with
  | inl e => (store ++ [remove_oxidation_states s], [], inl e)
  | inr (ox_list, solved_ox) =>
      if solved_ox then
        match add_oxidation_state_by_site ox_list (remove_oxidation_states s) with
        | inl e =>
            (store ++ [remove_oxidation_states s],
             ["Solved oxidation state, total_charge=" +:+ pretty (sum_Z ox_list)],
             inl e)
        | inr decorated =>
            (store ++ [decorated],
             ["Solved oxidation state, total_charge=" +:+ pretty (sum_Z ox_list)],
             inr (Some (length store)))
        end
      else (store ++ [remove_oxidation_states s],
            ["Failed to solve oxidation state"], inr None)
  end.
Proof.
  intros Hs. unfold solve_charge_by_mag.
  rewrite (list_lookup_total_correct _ _ _ Hs), copy_then_strip.
  rewrite (store_get_old _ _ _ _ Hs), store_get_last.
  destruct (solve_sites _ _ _ _ _ _ _) as [e | [ox_list [|]]]; try reflexivity.
  destruct (add_oxidation_state_by_site _ _); [reflexivity |].
  by rewrite store_set_last.
Qed.

(** C3.  For a site whose species has a range table, the state assigned is
    that of the first interval of the table, in the order the table is
    written, whose range holds the site's moment, and none if no interval
    does.  A range holds [m] when [min_mag <= m] and [m < max_mag] as
    binary64 comparisons, so the lower end of a proper interval is inside and
    its upper end is outside.  With the default Mn table a moment of 3.5
    gives 3, also through [solve_charge_by_mag]. *)
Theorem range_lookup_takes_first_interval :
  forall (ox_ranges : gmap string (list (float * float * Z)))
         (default_ox : gmap string Z) (ms : list float)
         (idx : nat) (m : float) (site : Site) (table : list (float * float * Z)),
    ox_ranges !! species_string site = Some table ->
    ms !! idx = Some m ->
    (forall pre lo hi ox post,
        table = pre ++ (lo, hi, ox) :: post ->
        Forall (fun e : float * float * Z => in_range e.1.1 e.1.2 m = false) pre ->
        in_range lo hi m = true ->
        site_ox ox_ranges default_ox (Some ms) idx site = inr (Some ox))
    /\ (Forall (fun e : float * float * Z => in_range e.1.1 e.1.2 m = false) table ->
        site_ox ox_ranges default_ox (Some ms) idx site = inr None)
    /\ (forall lo hi x,
          in_range lo hi x = true <->
          PrimFloat.leb lo x = true /\ PrimFloat.ltb x hi = true)
    /\ (forall lo hi,
          PrimFloat.ltb lo hi = true ->
          in_range lo hi lo = true /\ in_range lo hi hi = false)
    /\ range_lookup mn_ranges (Some [3.5%float]) 0 = inr (Some 3%Z)
    /\ (exists out,
          solve_charge_by_mag [sample_structure] 0 None None =
            ([sample_structure; out],
             ["Solved oxidation state, total_charge=1"], inr (Some 1)) /\
          oxi_state <$> sites out = [Some 3%Z; Some (-2)%Z]).
Proof.
  intros ox_ranges default_ox ms idx m site table Ht Hm.
  split; [| split; [| split; [| split; [| split]]]].
  - intros pre lo hi ox post -> Hpre Hin. unfold site_ox. rewrite Ht.
    by apply (range_lookup_first pre lo hi ox post ms idx m).
  - intros Hall. unfold site_ox. rewrite Ht.
    by apply (range_lookup_none table ms idx m).
  - intros lo hi x. unfold in_range. apply andb_true_iff.
  - intros lo hi Hlt. unfold in_range.
    rewrite (float_leb_refl lo hi Hlt), Hlt, float_ltb_irrefl.
    split; [reflexivity | apply andb_false_r].
  - vm_compute. reflexivity.
  - eexists. split; vm_compute; reflexivity.
Qed.

Lemma range_lookup_takes_first_interval_witness :
  ox_ranges_default !! species_string (sample_site "Mn" 0%float) = Some mn_ranges /\
  [3.5%float; 0%float] !! 0 = Some 3.5%float /\
  site_ox ox_ranges_default default_ox_default (Some [3.5%float; 0%float]) 0
    (sample_site "Mn" 0%float) = inr (Some 3%Z).
Proof.
  assert (ox_ranges_default !! species_string (sample_site "Mn" 0%float) =
          Some mn_ranges) as Ht by (vm_compute; reflexivity).
  split; [exact Ht |]. split; [reflexivity |].
  refine (proj1 (range_lookup_takes_first_interval ox_ranges_default
                   default_ox_default [3.5%float; 0%float] 0 3.5%float
                   (sample_site "Mn" 0%float) mn_ranges Ht eq_refl)
            [(0.5%float, 1.5%float, 2%Z); (1.5%float, 2.5%float, 3%Z);
             (2.5%float, 3.5%float, 4%Z)]
            3.5%float 4.2%float 3%Z [(4.2%float, 5%float, 2%Z)] eq_refl _ _).
  - repeat constructor.
  - reflexivity.
Defined.




(** C10.  The call leaves every object that was in the store where it was
    and as it was: the store afterwards is the store before followed by one
    new object, the copy, whether the call returns the copy, returns [None]
    or raises.  The moments the loop reads are those of the caller's
    structure. *)
Theorem input_structure_is_not_mutated :
  forall (store : list pmg_structure) (structure : nat)
         (default_ox : option (gmap string Z))
         (ox_ranges : option (gmap string (list (float * float * Z)))),
    exists out,
      (solve_charge_by_mag store structure default_ox ox_ranges).1.1 =
        store ++ [out]
      /\ take (length store)
           (solve_charge_by_mag store structure default_ox ox_ranges).1.1 =
         store
      /\ (forall r s, store !! r = Some s ->
            (solve_charge_by_mag store structure default_ox ox_ranges).1.1 !! r =
            Some s)
      /\ (forall s, store !! structure = Some s ->
            get_magmoms
              (alter remove_oxidation_states (length store)
                 (store ++ [store !!! structure]) !!! structure) =
            get_magmoms s).
Proof.
  intros store structure default_ox ox_ranges.
  destruct (solve_store store structure default_ox ox_ranges) as [out Hout].
  exists out. rewrite Hout. split; [reflexivity |].
  split; [apply take_app_length |]. split.
  - intros r s Hr. by apply lookup_app_l_Some.
  - intros s Hs. rewrite copy_then_strip.
    by rewrite (store_get_old _ _ _ _ Hs).
Qed.

Lemma input_structure_is_not_mutated_witness :
  exists out,
    (solve_charge_by_mag [decorated_structure] 0 None None).1.1 =
      [decorated_structure] ++ [out]
    /\ (solve_charge_by_mag [no_moment_structure] 0 None None).1.1 !! 0 =
       Some no_moment_structure.
Proof.
  destruct (input_structure_is_not_mutated [decorated_structure] 0 None None)
    as (out & Hout & _).
  destruct (input_structure_is_not_mutated [no_moment_structure] 0 None None)
    as (_ & _ & _ & Hold & _).
  exists out. split; [exact Hout | exact (Hold 0 _ eq_refl)].
Defined.


(** * Further properties of the scan *)

Lemma read_block_flags (st : scan_state) clean st' :
  read_block st clean = inr st' ->
  flags_set st' = flags_set st \/ flags_set st' = 0.
Proof.
  unfold read_block. intros H.
  destruct (reading st); [| inversion H; by left].
  destruct (startswith clean "# of ion").
  { bind_inv H. inversion H. by left. }
  destruct (match_data_row clean).
  { bind_inv H. bind_inv H. inversion H. by left. }
  destruct (startswith clean "tot"); inversion H; [by right | by left].
Qed.

Lemma switch_mode_flags (st : scan_state) clean :
  flags_set st <= 1 -> flags_set (switch_mode st clean) <= 1.
Proof.
  intros H. unfold switch_mode.
  repeat case_match; unfold flags_set; simpl; try lia; exact H.
Qed.

Lemma count_step_flags (st : scan_state) clean :
  flags_set (count_step st clean) = flags_set st.
Proof. unfold count_step. by destruct (contains _ clean). Qed.

Lemma scan_line_flags (st : scan_state) clean st' :
  flags_set st <= 1 -> scan_line st clean = inr st' -> flags_set st' <= 1.
Proof.
  unfold scan_line. intros Hone H. bind_inv H. inversion H; subst.
  apply switch_mode_flags.
  destruct (read_block_flags _ _ _ Ha) as [-> | ->]; [| lia].
  by rewrite count_step_flags.
Qed.

Lemma scan_line_tables (st : scan_state) clean st' :
  scan_line st clean = inr st' ->
  exists new, mag_x_all st' = mag_x_all st ++ new.
Proof.
  unfold scan_line. intros H. bind_inv H. inversion H; subst.
  rewrite switch_mode_tables.
  destruct (read_block_tables _ _ _ Ha) as [-> | [-> _]];
    rewrite count_step_tables.
  - exists []. by rewrite app_nil_r.
  - by eexists.
Qed.

Lemma split_blanks2_nonempty s : split_blanks2 s <> [].
Proof.
  unfold split_blanks2, split_close.
  destruct (sp_blanks _) as [| b [| b' bs]]; intros H;
    by apply app_eq_nil in H as [? ?].
Qed.

Lemma findall_fold_nonempty l : forall found run,
  existsb is_numchar l = true \/ found <> [] \/ run <> [] ->
  (fold_left findall_step l (found, run)).1 <> [] \/
  (fold_left findall_step l (found, run)).2 <> [].
Proof.
  induction l as [| c t IH]; intros found run H; simpl.
  - destruct H as [H | H]; [discriminate | exact H].
  - unfold findall_step at 2. destruct (is_numchar c) eqn:Ec.
    + apply IH. right. right. discriminate.
    + simpl in H. rewrite Ec in H. simpl in H.
      destruct run as [| r rs]; apply IH.
      * destruct H as [H | [H | H]]; auto.
      * right. left. intros Hn. by apply app_eq_nil in Hn as [? ?].
Qed.

Lemma findall_numeric_nonempty s :
  existsb is_numchar (list_ascii_of_string s) = true ->
  findall_numeric s <> [].
Proof.
  intros H. unfold findall_numeric.
  pose proof (findall_fold_nonempty (list_ascii_of_string s) [] []
                (or_introl H)) as Hne.
  destruct (fold_left findall_step (list_ascii_of_string s) ([], []))
    as [found run]. simpl in Hne.
  destruct run as [| r rs].
  - destruct Hne as [Hne | Hne]; [exact Hne | done].
  - intros Hn. by apply app_eq_nil in Hn as [? ?].
Qed.

Lemma drop_while_length p l : length (drop_while p l) <= length l.
Proof.
  induction l as [| c t IH]; simpl; [lia |].
  destruct (p c); simpl; lia.
Qed.

Lemma drop_while_suffix p l c t :
  drop_while p l = c :: t -> In c l.
Proof.
  induction l as [| a l IH]; simpl; [discriminate |].
  destruct (p a); intros H; [right; by apply IH | inversion H; by left].
Qed.

Lemma drop_while_shorter p l :
  Nat.eqb (length (drop_while p l)) (length l) = false ->
  exists c t, l = c :: t /\ p c = true.
Proof.
  destruct l as [| c t]; simpl; [discriminate |].
  destruct (p c) eqn:Ec.
  - intros _. by exists c, t.
  - intros H. simpl in H. rewrite Nat.eqb_refl in H. discriminate.
Qed.

Lemma match_data_row_has_digit s :
  match_data_row s = true ->
  existsb is_numchar (list_ascii_of_string s) = true.
Proof.
  unfold match_data_row. intros H.
  apply andb_true_iff in H as [H _]. apply andb_true_iff in H as [H _].
  apply andb_true_iff in H as [H _]. apply negb_true_iff in H.
  destruct (drop_while_shorter _ _ H) as (c & t & Hl & Hc).
  apply existsb_exists. exists c. split.
  - eapply drop_while_suffix. exact Hl.
  - unfold is_numchar. by rewrite Hc.
Qed.

Lemma mapM_length {A B} (f : A -> Res B) l : forall l',
  mapM f l = inr l' -> length l' = length l.
Proof.
  induction l as [| x t IH]; intros l' H; simpl in H.
  - by inversion H.
  - bind_inv H. bind_inv H. inversion H; subst. simpl. f_equal. by apply IH.
Qed.

Lemma mapM_py_float_error l e :
  mapM py_float l = inl e -> e = ValueError.
Proof.
  induction l as [| x t IH]; simpl; [discriminate |].
  destruct (py_float x) as [e' | y] eqn:Ex; simpl.
  - intros H. inversion H; subst. unfold py_float in Ex.
    repeat case_match; by inversion Ex.
  - destruct (mapM py_float t) as [e' | ys]; simpl; [| discriminate].
    intros H. inversion H; subst. by apply IH.
Qed.

Lemma read_block_error (st : scan_state) clean e :
  read_block st clean = inl e -> e = ValueError.
Proof.
  unfold read_block. destruct (reading st); [| discriminate].
  destruct (startswith clean "# of ion").
  { pose proof (split_blanks2_nonempty (strip clean)) as Hne.
    destruct (split_blanks2 (strip clean)); [done | discriminate]. }
  destruct (match_data_row clean) eqn:Em.
  - destruct (mapM py_float (findall_numeric clean)) as [e' | floats] eqn:Ef;
      simpl.
    + intros H. inversion H; subst. by apply mapM_py_float_error in Ef.
    + apply mapM_length in Ef.
      pose proof (findall_numeric_nonempty clean
                    (match_data_row_has_digit clean Em)) as Hne.
      destruct floats; [| discriminate].
      destruct (findall_numeric clean); [done | discriminate].
  - destruct (startswith clean "tot"); discriminate.
Qed.

(** X1.  The four reading flags behave as one mode: from the initial state,
    after any lines, at most one of them is set. *)
Theorem scan_keeps_one_mode :
  forall (all_lines : list string) (st st' : scan_state),
    flags_set st <= 1 ->
    scan_from st all_lines = inr st' ->
    flags_set st' <= 1.
Proof.
  induction all_lines as [| clean rest IH]; intros st st' Hone H; simpl in H.
  - inversion H; by subst.
  - bind_inv H. eapply IH; [| exact H]. eapply scan_line_flags; eauto.
Qed.

Lemma scan_keeps_one_mode_witness :
  flags_set scan_init <= 1 /\
  scan_from scan_init (collect_lines (rev (sample_outcar 1))) =
    inr short_outcar_scan /\
  flags_set short_outcar_scan <= 1.
Proof.
  assert (scan_from scan_init (collect_lines (rev (sample_outcar 1))) =
          inr short_outcar_scan) as H by (vm_compute; reflexivity).
  assert (flags_set scan_init <= 1) as H0 by apply Nat.le_0_l.
  split; [exact H0 |]. split; [exact H |].
  exact (scan_keeps_one_mode _ _ _ H0 H).
Defined.

(** X2.  The scan only ever appends to the list of completed tables: the
    tables completed before a stretch of lines are still there, unchanged
    and in place, after it. *)
Theorem completed_tables_only_grow :
  forall (all_lines : list string) (st st' : scan_state),
    scan_from st all_lines = inr st' ->
    exists new, mag_x_all st' = mag_x_all st ++ new.
Proof.
  induction all_lines as [| clean rest IH]; intros st st' H; simpl in H.
  - inversion H; subst. exists []. by rewrite app_nil_r.
  - bind_inv H. destruct (scan_line_tables _ _ _ Ha) as [new1 E1].
    destruct (IH _ _ H) as [new2 E2].
    exists (new1 ++ new2). by rewrite E2, E1, app_assoc.
Qed.

Lemma completed_tables_only_grow_witness :
  exists new, mag_x_all short_outcar_scan = mag_x_all scan_init ++ new.
Proof.
  apply (completed_tables_only_grow (collect_lines (rev (sample_outcar 1)))
           scan_init short_outcar_scan).
  vm_compute. reflexivity.
Defined.

(** X3.  A line leaves every variable of the scan as it is when it holds
    neither "magnetization (x)" nor "electrostatic", is none of the markers
    "total charge", "magnetization (y)", "magnetization (z)", and, if a
    reading flag is set, is neither a header line, nor a data row, nor a line
    that begins with "tot". *)
Theorem other_lines_are_ignored :
  forall (st : scan_state) (clean : string),
    contains "magnetization (x)" clean = false ->
    contains "electrostatic" clean = false ->
    clean <> "total charge" ->
    clean <> "magnetization (y)" ->
    clean <> "magnetization (z)" ->
    (reading st = true ->
       startswith clean "# of ion" = false /\
       match_data_row clean = false /\
       startswith clean "tot" = false) ->
    scan_line st clean = inr st.
Proof.
  intros st clean Hx He Hc Hy Hz Hr.
  assert (clean <> "magnetization (x)") as Hxm.
  { intros ->. vm_compute in Hx. discriminate. }
  unfold scan_line, count_step. rewrite Hx.
  assert (read_block st clean = inr st) as ->.
  { unfold read_block. destruct (reading st); [| reflexivity].
    destruct (Hr eq_refl) as (-> & -> & ->). reflexivity. }
  simpl. unfold switch_mode.
  apply String.eqb_neq in Hc, Hy, Hz, Hxm.
  by rewrite Hc, Hxm, Hy, Hz, He.
Qed.

Lemma other_lines_are_ignored_witness :
  scan_line reading_mag_x "--------------------------------------------------" =
  inr reading_mag_x.
Proof.
  apply other_lines_are_ignored; try reflexivity; try discriminate.
  intros _. repeat apply conj; reflexivity.
Defined.

(** X4.  The only exception the scan itself can raise is the [ValueError] of
    [float(token)] on a data row; the two [pop(0)] of lines 83 and 88 always
    find an element to remove. *)
Theorem scan_raises_only_value_error :
  forall (all_lines : list string) (st : scan_state) (e : exn),
    scan_from st all_lines = inl e -> e = ValueError.
Proof.
  induction all_lines as [| clean rest IH]; intros st e H; simpl in H;
    [discriminate |].
  destruct (scan_line st clean) as [e' | st'] eqn:El; simpl in H.
  - inversion H; subst. unfold scan_line in El.
    destruct (read_block (count_step st clean) clean) as [e' | st1] eqn:Eb;
      [| discriminate].
    inversion El; subst. by apply read_block_error in Eb.
  - by apply IH in H.
Qed.

Lemma scan_raises_only_value_error_witness :
  scan_from scan_init ["magnetization (x)"; "1 - x"] = inl ValueError.
Proof.
  assert (exists e, scan_from scan_init ["magnetization (x)"; "1 - x"] = inl e)
    as [e He] by (eexists; vm_compute; reflexivity).
  rewrite He. f_equal.
  exact (scan_raises_only_value_error _ _ _ He).
Defined.

(** * Further properties of the text handling *)

Lemma drop_while_idem p l : drop_while p (drop_while p l) = drop_while p l.
Proof.
  induction l as [| c t IH]; simpl; [reflexivity |].
  destruct (p c) eqn:E; [exact IH |]. simpl. by rewrite E.
Qed.

Lemma drop_while_head p l :
  drop_while p l = [] \/
  exists c t, drop_while p l = c :: t /\ p c = false.
Proof.
  induction l as [| c t IH]; simpl; [by left |].
  destruct (p c) eqn:E; [exact IH | right; eauto].
Qed.

Lemma drop_while_keeps_last p a c :
  p c = false -> exists x, drop_while p (a ++ [c]) = x ++ [c].
Proof.
  intros Hc. induction a as [| b a IH]; simpl.
  - rewrite Hc. by exists [].
  - destruct (p b); [exact IH |]. by exists (b :: a).
Qed.

Lemma drop_while_fixed p c t : p c = false -> drop_while p (c :: t) = c :: t.
Proof. intros H. simpl. by rewrite H. Qed.

(** Stripping the text of an already stripped list of characters. *)
Lemma strip_chars_idem l :
  rev (drop_while is_space
         (rev (drop_while is_space
                 (rev (drop_while is_space (rev (drop_while is_space l))))))) =
  rev (drop_while is_space (rev (drop_while is_space l))).
Proof.
  destruct (drop_while_head is_space l) as [-> | (c & t & -> & Hc)];
    [reflexivity |].
  pose proof (drop_while_idem is_space (rev (c :: t))) as Hidem.
  assert (exists x, drop_while is_space (rev (c :: t)) = x ++ [c]) as [x Hx].
  { simpl rev. by apply drop_while_keeps_last. }
  rewrite Hx in Hidem. rewrite Hx.
  rewrite rev_app_distr. change (rev [c] ++ rev x) with (c :: rev x).
  rewrite (drop_while_fixed _ _ _ Hc).
  change (c :: rev x) with (rev [c] ++ rev x).
  rewrite <- rev_app_distr, rev_involutive. by rewrite Hidem.
Qed.

Lemma strip_idem s : strip (strip s) = strip s.
Proof.
  unfold strip. rewrite list_ascii_of_string_of_list_ascii.
  f_equal. apply strip_chars_idem.
Qed.

(** X5.  The scan sees the lines of the OUTCAR in file order, each stripped:
    reading the file last line first and reversing the collected list undoes
    the reversal.  A collected line is its own strip, so the second
    [strip()] of line 82 changes nothing. *)
Theorem lines_are_scanned_in_file_order :
  forall file_lines : list string,
    collect_lines (rev file_lines) = map strip file_lines /\
    Forall (fun clean => strip clean = clean) (collect_lines (rev file_lines)).
Proof.
  intros file_lines.
  assert (collect_lines (rev file_lines) = map strip file_lines) as E.
  { unfold collect_lines. by rewrite map_rev, rev_involutive. }
  split; [exact E |]. rewrite E.
  clear E. induction file_lines as [| raw rest IH]; simpl; constructor;
    [apply strip_idem | exact IH].
Qed.

(** * Further properties of [parse_vasp_dir] *)

Lemma inputs_of_plain w file_root :
  path_exists w file_root = true ->
  path_exists w (file_root +:+ "/OSZICAR") = true ->
  inputs_of w file_root =
  read_inputs w {| oszicar_path := file_root +:+ "/OSZICAR";
                   vasprun_path := file_root +:+ "/vasprun.xml";
                   outcar_path := file_root +:+ "/OUTCAR" |}.
Proof.
  intros H1 H2. unfold inputs_of, locate_files. by rewrite H1, H2.
Qed.

Lemma parse_inputs_error w file_root check save e :
  inputs_of w file_root = inl e ->
  parse_vasp_dir w file_root check save = ([], inl e).
Proof. intros H. unfold parse_vasp_dir. by rewrite H. Qed.

(** X6.  Failures before the scan.  A missing directory raises
    [FileNotFoundError] whatever else the world holds.  When the directory
    and its OSZICAR exist, the three files are read under the plain names
    without a check that vasprun.xml and OUTCAR exist, in the order OSZICAR,
    vasprun.xml, OUTCAR, and the first reader that raises ends the call with
    its own exception and nothing printed. *)
Theorem failures_before_the_scan :
  forall (w : World) (file_root : string) (check : bool)
         (save : option string),
    (path_exists w file_root = false ->
       parse_vasp_dir w file_root check save =
         ([], inl (FileNotFoundError "No such file or directory")))
    /\ (path_exists w file_root = true ->
        path_exists w (file_root +:+ "/OSZICAR") = true ->
        (forall e, read_oszicar w (file_root +:+ "/OSZICAR") = inl e ->
           parse_vasp_dir w file_root check save = ([], inl e))
        /\ (forall oszicar e,
              read_oszicar w (file_root +:+ "/OSZICAR") = inr oszicar ->
              read_vasprun w (file_root +:+ "/vasprun.xml") = inl e ->
              parse_vasp_dir w file_root check save = ([], inl e))
        /\ (forall oszicar v e,
              read_oszicar w (file_root +:+ "/OSZICAR") = inr oszicar ->
              read_vasprun w (file_root +:+ "/vasprun.xml") = inr v ->
              reverse_readfile w (file_root +:+ "/OUTCAR") = inl e ->
              parse_vasp_dir w file_root check save = ([], inl e))).
Proof.
  intros w file_root check save. split.
  - intros H. apply parse_inputs_error.
    unfold inputs_of, locate_files. by rewrite H.
  - intros H1 H2. repeat apply conj.
    + intros e He. apply parse_inputs_error.
      rewrite (inputs_of_plain _ _ H1 H2). unfold read_inputs. simpl.
      by rewrite He.
    + intros oszicar e Ho He. apply parse_inputs_error.
      rewrite (inputs_of_plain _ _ H1 H2). unfold read_inputs. simpl.
      by rewrite Ho, He.
    + intros oszicar v e Ho Hv He. apply parse_inputs_error.
      rewrite (inputs_of_plain _ _ H1 H2). unfold read_inputs. simpl.
      by rewrite Ho, Hv, He.
Qed.

Lemma failures_before_the_scan_witness :
  path_exists (finished_run ["run"; "run/OSZICAR"]) "run" = true /\
  parse_vasp_dir (finished_run ["run"; "run/OSZICAR"]) "run" true None =
    ([], inl (FileNotFoundError "run/vasprun.xml")) /\
  parse_vasp_dir (finished_run plain_names) "elsewhere" true None =
    ([], inl (FileNotFoundError "No such file or directory")).
Proof.
  split; [reflexivity |]. split.
  - exact (proj1 (proj2 (proj2 (failures_before_the_scan
             (finished_run ["run"; "run/OSZICAR"]) "run" true None)
             eq_refl eq_refl))
             (sample_oszicar 2) (FileNotFoundError "run/vasprun.xml")
             eq_refl eq_refl).
  - exact (proj1 (failures_before_the_scan (finished_run plain_names)
                    "elsewhere" true None) eq_refl).
Defined.

Lemma align_total oszicar (tables : list (list (gmap string float))) :
  exists aligned, (align_tables oszicar tables).2 = inr aligned.
Proof.
  unfold align_tables.
  destruct (Z.eqb_spec (Z.of_nat (length (osz_ionic_steps oszicar)))
              (Z.of_nat (length tables))); [by eexists |].
  destruct (Z.eqb_spec (Z.of_nat (length (osz_ionic_steps oszicar)))
              (Z.of_nat (length tables) - 1)); [| by eexists].
  destruct tables; [simpl in *; lia | by eexists].
Qed.

Lemma exhausted_at_budget v nelm s :
  parameters v !! "NELM" = Some nelm ->
  (nelm <= Z.of_nat (length (Step.electronic_steps s)))%Z ->
  exhausted true v s = inr true.
Proof.
  intros Hn Hle. unfold exhausted. rewrite Hn. simpl. f_equal.
  by apply Z.leb_le.
Qed.

(** X7.  With the check on, a vasprun.xml that has ionic steps, each of which
    used at least NELM electronic steps, ends in the "no data" error,
    whatever the OUTCAR and the OSZICAR hold and whether or not a save path
    is given. *)
Theorem all_steps_exhausted_raise_no_data :
  forall w file_root save oszicar v st nelm,
    inputs_of w file_root = inr (oszicar, v, st) ->
    ionic_steps v <> [] ->
    parameters v !! "NELM" = Some nelm ->
    Forall (fun s => (nelm <= Z.of_nat (length (Step.electronic_steps s)))%Z)
      (ionic_steps v) ->
    (parse_vasp_dir w file_root true save).2 = inl (no_data file_root).
Proof.
  intros w file_root save oszicar v st nelm Hin Hne Hn Hall.
  rewrite (parse_after_inputs _ _ _ _ _ _ _ Hin). simpl.
  destruct (align_total oszicar (mag_x_all st)) as [aligned ->]. simpl.
  apply build_dataset_all_skipped; [exact Hne |].
  eapply Forall_impl; [exact Hall |].
  intros s Hs. by apply (exhausted_at_budget v nelm).
Qed.

Lemma all_steps_exhausted_raise_no_data_witness :
  (parse_vasp_dir (short_outcar_run [sample_step 60; sample_step 75]) "run"
     true None).2 = inl (no_data "run").
Proof.
  apply (all_steps_exhausted_raise_no_data
           (short_outcar_run [sample_step 60; sample_step 75]) "run" None
           (sample_oszicar 4)
           (sample_vasprun [sample_step 60; sample_step 75])
           short_outcar_scan 60%Z).
  - vm_compute. reflexivity.
  - discriminate.
  - vm_compute. reflexivity.
  - repeat constructor; vm_compute; discriminate.
Defined.

Section AssembleMore.

Variables (check : bool) (v : Vasprun) (n_atoms : nat).
Variable tables : list (list (gmap string float)).

(** What one round of the loop does to the dataset. *)
Lemma assemble_step_inv ds index s ds' :
  assemble_step check v n_atoms tables ds index s = inr ds' ->
  (kept check v s = false /\ ds' = ds) \/
  (kept check v s = true /\ n_atoms <> 0 /\
   Dataset.energy_per_atom ds' =
     Dataset.energy_per_atom ds ++
     [PrimFloat.div (Step.e_0_energy s) (float_of_nat n_atoms)] /\
   match tables with
   | [] => Dataset.magmom ds' = Dataset.magmom ds
   | _ => exists col, tot_column tables index = inr col /\
            Dataset.magmom ds' = Dataset.magmom ds ++ [col]
   end /\
   match Step.stress s with
   | None => Dataset.stress ds' = Dataset.stress ds
   | Some x => exists l, Dataset.stress ds = Some l /\
                 Dataset.stress ds' = Some (l ++ [x])
   end).
Proof.
  unfold assemble_step. intros H. bind_inv H.
  rewrite (exhausted_kept _ _ _ _ Ha). destruct a; simpl.
  { left. inversion H. by subst. }
  right. split; [reflexivity |].
  bind_inv H. bind_inv H. bind_inv H. inversion H; subst; clear H. simpl.
  unfold per_atom in Ha0. destruct n_atoms as [| n]; [discriminate |].
  inversion Ha0; subst; clear Ha0.
  split; [done |]. split; [reflexivity |]. split.
  - destruct tables as [| t0 ts]; [by inversion Ha1 |].
    bind_inv Ha1. inversion Ha1; subst. by exists a.
  - destruct (Step.stress s) as [x |]; [| by inversion Ha2].
    destruct (Dataset.stress ds) as [l |]; [| discriminate].
    inversion Ha2; subst. by exists l.
Qed.

Lemma assemble_from_energy_per_atom steps : forall index ds ds',
  assemble_from check v n_atoms tables index steps ds = inr ds' ->
  Dataset.energy_per_atom ds' =
    Dataset.energy_per_atom ds ++
    map (fun s => PrimFloat.div (Step.e_0_energy s) (float_of_nat n_atoms))
      (List.filter (kept check v) steps)
  /\ (List.filter (kept check v) steps <> [] -> n_atoms <> 0).
Proof.
  induction steps as [| s rest IH]; intros index ds ds' H; simpl in H.
  - inversion H; subst. simpl. by rewrite app_nil_r.
  - bind_inv H. destruct (IH _ _ _ H) as [E Hn]. simpl.
    destruct (assemble_step_inv _ _ _ _ Ha)
      as [[Hk ->] | (Hk & Hn0 & Ee & _)]; rewrite Hk.
    + by split.
    + split; [| done]. rewrite E, Ee. simpl. by rewrite <- app_assoc.
Qed.

Lemma assemble_from_magmom steps : forall index ds ds',
  assemble_from check v n_atoms tables index steps ds = inr ds' ->
  exists cols,
    Dataset.magmom ds' = Dataset.magmom ds ++ cols /\
    (tables = [] -> cols = []) /\
    (tables <> [] ->
       Forall2 (fun (p : nat * Step.t) col => tot_column tables p.1 = inr col)
         (List.filter (fun p : nat * Step.t => kept check v p.2)
            (enumerate_from index steps))
         cols).
Proof.
  induction steps as [| s rest IH]; intros index ds ds' H; simpl in H.
  - inversion H; subst. exists []. rewrite app_nil_r.
    repeat apply conj; [reflexivity | done | intros _; constructor].
  - bind_inv H. destruct (IH _ _ _ H) as (cols & E & Hnil & Hcols). simpl.
    destruct (assemble_step_inv _ _ _ _ Ha)
      as [[Hk ->] | (Hk & _ & _ & Em & _)]; rewrite Hk.
    + by exists cols.
    + destruct tables as [| t0 ts] eqn:Et.
      * exists cols. rewrite E, Em. repeat apply conj; [reflexivity | done |].
        intros Hne. done.
      * destruct Em as (col & Hcol & Em). exists (col :: cols).
        rewrite E, Em, <- app_assoc. repeat apply conj; [reflexivity | done |].
        intros _. constructor; [exact Hcol | by apply Hcols].
Qed.

Lemma assemble_from_stress steps : forall index ds ds',
  assemble_from check v n_atoms tables index steps ds = inr ds' ->
  match Dataset.stress ds with
  | None =>
      Dataset.stress ds' = None /\
      Forall (fun s => Step.stress s = None) (List.filter (kept check v) steps)
  | Some l =>
      Dataset.stress ds' =
      Some (l ++ omap Step.stress (List.filter (kept check v) steps))
  end.
Proof.
  induction steps as [| s rest IH]; intros index ds ds' H; simpl in H.
  - inversion H; subst. destruct (Dataset.stress ds'); [| by split].
    simpl. by rewrite app_nil_r.
  - bind_inv H. specialize (IH _ _ _ H). simpl.
    destruct (assemble_step_inv _ _ _ _ Ha)
      as [[Hk ->] | (Hk & _ & _ & _ & Es)]; rewrite Hk; [exact IH |].
    destruct (Step.stress s) as [x |] eqn:Ex.
    + destruct Es as (l & El & El'). rewrite El' in IH. rewrite El.
      simpl. rewrite Ex. simpl. by rewrite <- app_assoc in IH.
    + rewrite Es in IH. destruct (Dataset.stress ds) as [l |].
      * simpl. by rewrite Ex.
      * destruct IH as [IH1 IH2]. split; [exact IH1 |]. by constructor.
Qed.

End AssembleMore.

(** X8.  Whenever a dataset is returned, its "magmom" entry is empty if no
    table was left after the alignment; otherwise it has one entry per kept
    step, in order, and the entry of a kept step is the "tot" column of the
    table at that step's own position in the vasprun.xml, so the tables at
    the positions of skipped steps are not used. *)
Theorem magmom_follows_step_index :
  forall w file_root check save printed d,
    parse_vasp_dir w file_root check save = (printed, inr d) ->
    exists oszicar v st tables,
      inputs_of w file_root = inr (oszicar, v, st) /\
      align_tables oszicar (mag_x_all st) = (printed, inr tables) /\
      (tables = [] -> Dataset.magmom d = []) /\
      (tables <> [] ->
         Forall2 (fun (p : nat * Step.t) col => tot_column tables p.1 = inr col)
           (List.filter (fun p : nat * Step.t => kept check v p.2)
              (enumerate_from 0 (ionic_steps v)))
           (Dataset.magmom d)).
Proof.
  intros w file_root check save printed d H.
  destruct (parse_returns _ _ _ _ _ _ H)
    as (oszicar & v & st & tables & Hin & Hal & Hb).
  destruct (build_dataset_returns _ _ _ _ _ _ _ Hb) as (first & rest & E & Ha & _).
  destruct (assemble_from_magmom _ _ _ _ _ _ _ _ Ha) as (cols & Em & Hnil & Hc).
  simpl in Em. exists oszicar, v, st, tables.
  repeat apply conj; [exact Hin | exact Hal | |].
  - intros Ht. by rewrite Em, (Hnil Ht).
  - intros Ht. rewrite Em. by apply Hc.
Qed.

Lemma magmom_follows_step_index_witness :
  parse_vasp_dir (finished_run plain_names) "run" true None =
    ([], inr finished_dataset) /\
  exists oszicar v st tables,
    inputs_of (finished_run plain_names) "run" = inr (oszicar, v, st) /\
    align_tables oszicar (mag_x_all st) = ([], inr tables) /\
    (tables = [] -> Dataset.magmom finished_dataset = []).
Proof.
  assert (parse_vasp_dir (finished_run plain_names) "run" true None =
          ([], inr finished_dataset)) as H by (vm_compute; reflexivity).
  split; [exact H |].
  destruct (magmom_follows_step_index _ _ _ _ _ _ H)
    as (oszicar & v & st & tables & Hin & Hal & Hnil & _).
  exists oszicar, v, st, tables.
  split; [exact Hin |]. split; [exact Hal | exact Hnil].
Defined.

(** X9.  Whenever a dataset is returned, it is not empty, the first ionic
    step has at least one atom, and the per-atom energy of every kept step is
    its energy divided by the number of atoms of the first step's structure
    (line 132), not of its own.  The structure, energy, per-atom energy and
    force columns have one entry per kept step. *)
Theorem energy_per_atom_uses_first_step :
  forall w file_root check save printed d,
    parse_vasp_dir w file_root check save = (printed, inr d) ->
    exists oszicar v st first rest,
      inputs_of w file_root = inr (oszicar, v, st) /\
      ionic_steps v = first :: rest /\
      sites (Step.structure first) <> [] /\
      List.filter (kept check v) (ionic_steps v) <> [] /\
      Dataset.energy_per_atom d =
        map (fun s => PrimFloat.div (Step.e_0_energy s)
                        (float_of_nat (length (sites (Step.structure first)))))
          (List.filter (kept check v) (ionic_steps v)) /\
      length (Dataset.structure d) =
        length (List.filter (kept check v) (ionic_steps v)) /\
      length (Dataset.uncorrected_total_energy d) = length (Dataset.structure d) /\
      length (Dataset.energy_per_atom d) = length (Dataset.structure d) /\
      length (Dataset.force d) = length (Dataset.structure d).
Proof.
  intros w file_root check save printed d H.
  destruct (parse_returns _ _ _ _ _ _ H)
    as (oszicar & v & st & tables & Hin & _ & Hb).
  destruct (build_dataset_returns _ _ _ _ _ _ _ Hb)
    as (first & rest & E & Ha & Hne).
  destruct (assemble_from_columns _ _ _ _ _ _ _ _ Ha) as (F1 & F2 & F3).
  destruct (assemble_from_energy_per_atom _ _ _ _ _ _ _ _ Ha) as (F4 & Hn).
  simpl in F1, F2, F3, F4.
  assert (List.filter (kept check v) (ionic_steps v) <> []) as Hk.
  { intros Hnil. rewrite Hnil in F2. by apply Hne. }
  exists oszicar, v, st, first, rest.
  repeat apply conj; try done.
  - specialize (Hn Hk). by destruct (sites (Step.structure first)).
  - by rewrite F1, length_map.
  - by rewrite F1, F2, !length_map.
  - by rewrite F1, F4, !length_map.
  - by rewrite F1, F3, !length_map.
Qed.

Lemma energy_per_atom_uses_first_step_witness :
  parse_vasp_dir (finished_run plain_names) "run" true None =
    ([], inr finished_dataset) /\
  length (Dataset.energy_per_atom finished_dataset) =
    length (Dataset.structure finished_dataset).
Proof.
  assert (parse_vasp_dir (finished_run plain_names) "run" true None =
          ([], inr finished_dataset)) as H by (vm_compute; reflexivity).
  split; [exact H |].
  destruct (energy_per_atom_uses_first_step _ _ _ _ _ _ H)
    as (oszicar & v & st & first & rest & _ & _ & _ & _ & _ & _ & _ & Hl & _).
  exact Hl.
Defined.

(** X10.  Whenever a dataset is returned, its "stress" entry is decided by
    the first ionic step alone.  If the first step has no stress, the entry
    is [None] and no kept step has a stress.  If it has one, the entry is the
    list of the stresses of the kept steps that have one, in order, so it is
    shorter than the other columns when a kept step lacks its stress. *)
Theorem stress_follows_first_step :
  forall w file_root check save printed d,
    parse_vasp_dir w file_root check save = (printed, inr d) ->
    exists oszicar v st first rest,
      inputs_of w file_root = inr (oszicar, v, st) /\
      ionic_steps v = first :: rest /\
      (Step.stress first = None ->
         Dataset.stress d = None /\
         Forall (fun s => Step.stress s = None)
           (List.filter (kept check v) (ionic_steps v))) /\
      (is_Some (Step.stress first) ->
         Dataset.stress d =
         Some (omap Step.stress (List.filter (kept check v) (ionic_steps v)))).
Proof.
  intros w file_root check save printed d H.
  destruct (parse_returns _ _ _ _ _ _ H)
    as (oszicar & v & st & tables & Hin & _ & Hb).
  destruct (build_dataset_returns _ _ _ _ _ _ _ Hb)
    as (first & rest & E & Ha & _).
  pose proof (assemble_from_stress _ _ _ _ _ _ _ _ Ha) as Hs.
  unfold empty_dataset in Hs. simpl in Hs.
  exists oszicar, v, st, first, rest.
  repeat apply conj; try done.
  - intros Hnone. by rewrite Hnone in Hs.
  - intros [x Hx]. by rewrite Hx in Hs.
Qed.

Lemma stress_follows_first_step_witness :
  parse_vasp_dir (finished_run plain_names) "run" true None =
    ([], inr finished_dataset) /\
  exists oszicar v st first rest,
    inputs_of (finished_run plain_names) "run" = inr (oszicar, v, st) /\
    ionic_steps v = first :: rest /\
    (Step.stress first = None -> Dataset.stress finished_dataset = None).
Proof.
  assert (parse_vasp_dir (finished_run plain_names) "run" true None =
          ([], inr finished_dataset)) as H by (vm_compute; reflexivity).
  split; [exact H |].
  destruct (stress_follows_first_step _ _ _ _ _ _ H)
    as (oszicar & v & st & first & rest & Hin & E & Hnone & _).
  exists oszicar, v, st, first, rest.
  split; [exact Hin |]. split; [exact E |].
  intros Hf. exact (proj1 (Hnone Hf)).
Defined.

(** X11.  The save path changes nothing but the write.  If the call without
    a save path returns a dataset, the call with one hands that dataset and
    the path to [write_json] and then returns the same dataset with the same
    printed lines, or raises what [write_json] raises.  If the call without
    a save path raises, the call with one raises the same exception. *)
Theorem save_path_only_adds_the_write :
  forall w file_root check path printed,
    (forall d,
        parse_vasp_dir w file_root check None = (printed, inr d) ->
        parse_vasp_dir w file_root check (Some path) =
          (printed,
           match write_json w d path with
           | inl e => inl e
           | inr _ => inr d
           end))
    /\ (forall e,
          parse_vasp_dir w file_root check None = (printed, inl e) ->
          parse_vasp_dir w file_root check (Some path) = (printed, inl e)).
Proof.
  intros w file_root check path printed.
  assert (forall v tables,
    build_dataset w file_root check (Some path) v tables =
    match build_dataset w file_root check None v tables with
    | inl e => inl e
    | inr d => match write_json w d path with
               | inl e => inl e
               | inr _ => inr d
               end
    end) as Hb.
  { intros v tables. unfold build_dataset.
    destruct (dataset_init v) as [e | init]; [reflexivity |]. simpl.
    destruct (assemble_from _ _ _ _ _ _ _) as [e | d]; [reflexivity |]. simpl.
    destruct (Dataset.uncorrected_total_energy d); [reflexivity |].
    unfold ret. destruct (write_json w d path); reflexivity. }
  unfold parse_vasp_dir.
  destruct (inputs_of w file_root) as [e0 | [[oszicar v] st]].
  { split; [intros d H; discriminate | intros e H; exact H]. }
  destruct (align_tables oszicar (mag_x_all st)) as [out [e1 | tables]];
    simpl.
  { split; [intros d H; discriminate | intros e H; exact H]. }
  rewrite Hb. split.
  - intros d H. inversion H as [[Hp Hd]]. by rewrite Hd.
  - intros e H. inversion H as [[Hp Hd]]. by rewrite Hd.
Qed.

Lemma save_path_only_adds_the_write_witness :
  parse_vasp_dir (finished_run plain_names) "run" true (Some "labels.json") =
    ([], inr finished_dataset).
Proof.
  exact (proj1 (save_path_only_adds_the_write (finished_run plain_names)
                  "run" true "labels.json" [])
           finished_dataset
           ltac:(vm_compute; reflexivity)).
Defined.

(** * Further properties of [solve_charge_by_mag] *)

Section SolverMore.

Variable ox_ranges : gmap string (list (float * float * Z)).
Variable default_ox : gmap string Z.
Variable magmoms : option (list float).

(** A set flag at the end means every site resolved, in order. *)
Lemma solve_sites_inv l : forall idx acc b acc',
  solve_sites ox_ranges default_ox magmoms idx l acc b = inr (acc', true) ->
  b = true /\
  exists oxs,
    acc' = acc ++ oxs /\ length oxs = length l /\
    forall j site, l !! j = Some site ->
      exists ox, oxs !! j = Some ox /\
        site_ox ox_ranges default_ox magmoms (idx + j) site = inr (Some ox).
Proof.
  induction l as [| site rest IH]; intros idx acc b acc' H; simpl in H.
  - inversion H; subst. split; [reflexivity |]. exists [].
    rewrite app_nil_r. repeat apply conj; [reflexivity | reflexivity |].
    intros j s Hj. destruct j; discriminate.
  - bind_inv H. destruct a as [ox |].
    + destruct (IH _ _ _ _ H) as (Hb & oxs & E & Hlen & Hres).
      split; [exact Hb |]. exists (ox :: oxs).
      rewrite E, <- app_assoc. repeat apply conj; [reflexivity | |].
      * simpl. by rewrite Hlen.
      * intros j s Hj. destruct j as [| j].
        -- inversion Hj; subst. exists ox. rewrite Nat.add_0_r. by split.
        -- destruct (Hres j s Hj) as (o & Ho & Hs). exists o.
           rewrite Nat.add_succ_r. by split.
    + destruct (IH _ _ _ _ H) as (Hb & _). discriminate.
Qed.

(** A flag cleared during the loop means some site did not resolve. *)
Lemma solve_sites_cleared l : forall idx acc acc',
  solve_sites ox_ranges default_ox magmoms idx l acc true = inr (acc', false) ->
  exists j site, l !! j = Some site /\
    site_ox ox_ranges default_ox magmoms (idx + j) site = inr None.
Proof.
  induction l as [| site rest IH]; intros idx acc acc' H; simpl in H.
  - inversion H.
  - bind_inv H. destruct a as [ox |].
    + destruct (IH _ _ _ H) as (j & s & Hj & Hs).
      exists (S j), s. rewrite Nat.add_succ_r. by split.
    + exists 0, site. rewrite Nat.add_0_r. by split.
Qed.

End SolverMore.

Lemma decorated_states (l : list Site) : forall oxs : list Z,
  length oxs = length l ->
  oxi_state <$> zip_with decorate_site l oxs = Some <$> oxs /\
  element <$> zip_with decorate_site l oxs = element <$> l /\
  frac_coords <$> zip_with decorate_site l oxs = frac_coords <$> l.
Proof.
  induction l as [| s l IH]; intros [| ox oxs] Hlen; try discriminate.
  - done.
  - simpl in Hlen. destruct (IH oxs ltac:(lia)) as (E1 & E2 & E3).
    csimpl. by rewrite E1, E2, E3.
Qed.

Lemma stripped_elements (l : list Site) :
  element <$> map strip_site l = element <$> l /\
  frac_coords <$> map strip_site l = frac_coords <$> l.
Proof.
  induction l as [| s l [IH1 IH2]]; [done |]. csimpl. by rewrite IH1, IH2.
Qed.

Lemma map_lookup {A B} (f : A -> B) (l : list A) i :
  map f l !! i = f <$> l !! i.
Proof.
  revert i. induction l as [| x l IH]; intros [| i]; simpl; auto.
Qed.

(** X12.  What a returned value says about the sites.  If the call returns
    a structure, it is the new object at the end of the store: the copy, with
    the elements, coordinates and site properties of the input, where every
    site carries the state it resolved to, and the printed total is the sum
    of these states.  If the call returns [None], some site of the stripped
    copy resolved to no state. *)
Theorem returned_structure_is_fully_decorated :
  forall (store : list pmg_structure) (structure : nat)
         (default_ox : option (gmap string Z))
         (ox_ranges : option (gmap string (list (float * float * Z))))
         (s : pmg_structure) store' printed,
    store !! structure = Some s ->
    (forall r',
        solve_charge_by_mag store structure default_ox ox_ranges =
          (store', printed, inr (Some r')) ->
        r' = length store /\
        exists out oxs,
          store' = store ++ [out] /\
          length oxs = length (sites s) /\
          site_properties out = site_properties s /\
          element <$> sites out = element <$> sites s /\
          frac_coords <$> sites out = frac_coords <$> sites s /\
          oxi_state <$> sites out = Some <$> oxs /\
          printed =
            ["Solved oxidation state, total_charge=" +:+ pretty (sum_Z oxs)] /\
          forall idx site,
            sites (remove_oxidation_states s) !! idx = Some site ->
            exists ox, oxs !! idx = Some ox /\
              site_ox (dict_or ox_ranges ox_ranges_default)
                (dict_or default_ox default_ox_default) (get_magmoms s)
                idx site = inr (Some ox))
    /\ (solve_charge_by_mag store structure default_ox ox_ranges =
          (store', printed, inr None) ->
        exists idx site,
          sites (remove_oxidation_states s) !! idx = Some site /\
          site_ox (dict_or ox_ranges ox_ranges_default)
            (dict_or default_ox default_ox_default) (get_magmoms s)
            idx site = inr None).
Proof.
  intros store structure default_ox ox_ranges s store' printed Hs.
  rewrite (solve_unfold _ _ _ _ _ Hs).
  destruct (solve_sites _ _ _ _ _ _ _) as [e | [ox_list solved]] eqn:E.
  { split; [intros r' H | intros H]; discriminate. }
  destruct solved.
  - destruct (solve_sites_inv _ _ _ _ _ _ _ _ E) as (_ & oxs & Eo & Hlen & Hres).
    simpl in Eo. subst ox_list.
    simpl in Hlen. rewrite length_map in Hlen.
    unfold add_oxidation_state_by_site. simpl sites.
    rewrite length_map, Hlen, Nat.eqb_refl.
    split; [| intros H; discriminate].
    intros r' H. inversion H; subst. split; [reflexivity |].
    destruct (decorated_states (map strip_site (sites s)) oxs) as (D1 & D2 & D3).
    { by rewrite length_map. }
    destruct (stripped_elements (sites s)) as (S1 & S2).
    eexists. exists oxs.
    repeat apply conj; try reflexivity; try exact Hlen; simpl sites.
    + by rewrite D2.
    + by rewrite D3.
    + exact D1.
    + intros idx site Hsite. exact (Hres idx site Hsite).
  - split; [intros r' H; discriminate |].
    intros _. destruct (solve_sites_cleared _ _ _ _ _ _ _ E) as (j & site & Hj & Hn).
    by exists j, site.
Qed.

Lemma returned_structure_is_fully_decorated_witness :
  [decorated_structure] !! 0 = Some decorated_structure /\
  exists out oxs,
    (solve_charge_by_mag [decorated_structure] 0 None None).1.1 =
      [decorated_structure] ++ [out] /\
    oxi_state <$> sites out = Some <$> oxs.
Proof.
  split; [reflexivity |].
  destruct (proj1 (returned_structure_is_fully_decorated
                     [decorated_structure] 0 None None decorated_structure
                     (solve_charge_by_mag [decorated_structure] 0 None None).1.1
                     (solve_charge_by_mag [decorated_structure] 0 None None).1.2
                     eq_refl) 1 ltac:(vm_compute; reflexivity))
    as (_ & out & oxs & Hst & _ & _ & _ & _ & Hox & _).
  by exists out, oxs.
Defined.

(** X13.  Oxidation states the input already carries play no part.  Two
    structures that agree once their states are removed lead to the same
    printed line, the same outcome and the same new object. *)
Theorem existing_decoration_is_ignored :
  forall (store1 store2 : list pmg_structure) (r1 r2 : nat)
         (default_ox : option (gmap string Z))
         (ox_ranges : option (gmap string (list (float * float * Z))))
         (s1 s2 : pmg_structure),
    store1 !! r1 = Some s1 ->
    store2 !! r2 = Some s2 ->
    length store1 = length store2 ->
    remove_oxidation_states s1 = remove_oxidation_states s2 ->
    (solve_charge_by_mag store1 r1 default_ox ox_ranges).1.2 =
      (solve_charge_by_mag store2 r2 default_ox ox_ranges).1.2
    /\ (solve_charge_by_mag store1 r1 default_ox ox_ranges).2 =
       (solve_charge_by_mag store2 r2 default_ox ox_ranges).2
    /\ exists out,
         (solve_charge_by_mag store1 r1 default_ox ox_ranges).1.1 =
           store1 ++ [out] /\
         (solve_charge_by_mag store2 r2 default_ox ox_ranges).1.1 =
           store2 ++ [out].
Proof.
  intros store1 store2 r1 r2 default_ox ox_ranges s1 s2 H1 H2 Hlen Hrem.
  rewrite (solve_unfold _ _ _ _ _ H1), (solve_unfold _ _ _ _ _ H2).
  assert (get_magmoms s1 = get_magmoms s2) as ->.
  { unfold get_magmoms.
    change (site_properties s1)
      with (site_properties (remove_oxidation_states s1)).
    by rewrite Hrem. }
  rewrite Hrem, Hlen.
  destruct (solve_sites _ _ _ _ _ _ _) as [e | [ox_list [|]]]; simpl;
    try (repeat apply conj; [reflexivity | reflexivity | by eexists]).
  destruct (add_oxidation_state_by_site _ _); simpl;
    repeat apply conj; try reflexivity; by eexists.
Qed.

Lemma existing_decoration_is_ignored_witness :
  (solve_charge_by_mag [decorated_structure] 0 None None).2 =
  (solve_charge_by_mag [remove_oxidation_states decorated_structure] 0
     None None).2.
Proof.
  exact (proj1 (proj2 (existing_decoration_is_ignored
           [decorated_structure] [remove_oxidation_states decorated_structure]
           0 0 None None decorated_structure
           (remove_oxidation_states decorated_structure)
           eq_refl eq_refl eq_refl eq_refl))).
Defined.

(** X14.  A species that has a range table is never looked up in the table
    of fixed states ([elif], line 213): if the moment of such a site lies in
    no interval of its table, the site stays without a state and the call
    returns [None], whatever [default_ox] holds for the species. *)
Theorem ranged_species_never_falls_back :
  forall (store : list pmg_structure) (structure : nat)
         (default_ox : option (gmap string Z))
         (ox_ranges : option (gmap string (list (float * float * Z))))
         (s : pmg_structure) (ms : list float) (idx : nat) (site : Site)
         (table : list (float * float * Z)) (m : float),
    store !! structure = Some s ->
    get_magmoms s = Some ms ->
    length (sites s) <= length ms ->
    sites s !! idx = Some site ->
    ms !! idx = Some m ->
    dict_or ox_ranges ox_ranges_default !! element site = Some table ->
    Forall (fun e : float * float * Z => in_range e.1.1 e.1.2 m = false) table ->
    solve_charge_by_mag store structure default_ox ox_ranges =
      (store ++ [remove_oxidation_states s],
       ["Failed to solve oxidation state"], inr None).
Proof.
  intros store structure default_ox ox_ranges s ms idx site table m
    Hs Hms Hlen Hsite Hm Ht Hall.
  rewrite (solve_unfold _ _ _ _ _ Hs), Hms.
  destruct (solve_sites_fail (dict_or ox_ranges ox_ranges_default)
              (dict_or default_ox default_ox_default) ms
              (sites (remove_oxidation_states s)) 0 [] true)
    as [acc ->]; [| | reflexivity].
  - simpl. by rewrite length_map.
  - right. exists idx, (strip_site site). split.
    + simpl. by rewrite map_lookup, Hsite.
    + change (0 + idx) with idx. unfold site_ox.
      change (species_string (strip_site site)) with (element site).
      rewrite Ht. by apply (range_lookup_none table ms idx m).
Qed.

Lemma ranged_species_never_falls_back_witness :
  solve_charge_by_mag [sample_structure] 0
    (Some (<["Mn" := 2%Z]> (<["O" := (-2)%Z]> ∅)))
    (Some (<["Mn" := [(4%float, 5%float, 2%Z)]]> ∅)) =
  ([sample_structure] ++ [remove_oxidation_states sample_structure],
   ["Failed to solve oxidation state"], inr None).
Proof.
  refine (ranged_species_never_falls_back [sample_structure] 0 _ _
            sample_structure [3.5%float; 0%float] 0
            (sample_site "Mn" 0%float) [(4%float, 5%float, 2%Z)] 3.5%float
            _ _ _ _ _ _ _).
  - reflexivity.
  - vm_compute. reflexivity.
  - apply le_n.
  - reflexivity.
  - reflexivity.
  - vm_compute. reflexivity.
  - repeat constructor.
Defined.






(** X16.  An empty dict given for [default_ox] or [ox_ranges] is replaced by
    the built-in table, like [None] ([or], lines 196-199).  A non-empty
    [default_ox] replaces the built-in states instead of extending them: a
    species without a range table gets the state the given dict holds for
    it, or none. *)
Theorem empty_overrides_mean_defaults :
  forall (store : list pmg_structure) (structure : nat)
         (default_ox : option (gmap string Z))
         (ox_ranges : option (gmap string (list (float * float * Z)))),
    solve_charge_by_mag store structure (Some ∅) ox_ranges =
      solve_charge_by_mag store structure None ox_ranges
    /\ solve_charge_by_mag store structure default_ox (Some ∅) =
       solve_charge_by_mag store structure default_ox None
    /\ (forall (m : gmap string Z) magmoms idx site,
          m <> ∅ ->
          dict_or ox_ranges ox_ranges_default !! species_string site = None ->
          site_ox (dict_or ox_ranges ox_ranges_default)
            (dict_or (Some m) default_ox_default) magmoms idx site =
          inr (m !! species_string site)).
Proof.
  intros store structure default_ox ox_ranges.
  repeat apply conj.
  - unfold solve_charge_by_mag, dict_or. by rewrite map_to_list_empty.
  - unfold solve_charge_by_mag, dict_or. by rewrite map_to_list_empty.
  - intros m magmoms idx site Hne Hr. unfold site_ox. rewrite Hr.
    unfold dict_or at 1. destruct (map_to_list m) eqn:E; [| reflexivity].
    by apply map_to_list_empty_iff in E.
Qed.

(** * Further properties of the table rows *)

Lemma dict_of_pairs_snoc l k v :
  dict_of_pairs (l ++ [(k, v)]) = <[k := v]> (dict_of_pairs l).
Proof. unfold dict_of_pairs. by rewrite fold_left_app. Qed.

(** In [dict(pairs)] a key holds the value of its last pair. *)
Lemma dict_of_pairs_lookup (l : list (string * float)) : forall i k v,
  l !! i = Some (k, v) ->
  (forall j v', i < j -> l !! j <> Some (k, v')) ->
  dict_of_pairs l !! k = Some v.
Proof.
  induction l as [| [k' v'] l IH] using rev_ind; intros i k v Hi Hlast.
  - destruct i; discriminate.
  - rewrite dict_of_pairs_snoc.
    destruct (decide (i < length l)) as [Hlt | Hge].
    + rewrite lookup_app_l in Hi by exact Hlt.
      assert (k' <> k) as Hne.
      { intros ->. apply (Hlast (length l) v' Hlt).
        by rewrite list_lookup_middle. }
      rewrite lookup_insert_ne by exact Hne.
      apply (IH i k v Hi). intros j w Hj Hjw.
      apply (Hlast j w Hj). by apply lookup_app_l_Some.
    + assert (i = length l) as ->.
      { apply lookup_lt_Some in Hi. rewrite length_app in Hi. simpl in Hi. lia. }
      rewrite list_lookup_middle in Hi by reflexivity.
      inversion Hi; subst. apply lookup_insert_eq.
Qed.

Lemma combine_lookup {A B} (h : list A) : forall (t : list B) i,
  combine h t !! i =
  match h !! i, t !! i with
  | Some k, Some v => Some (k, v)
  | _, _ => None
  end.
Proof.
  induction h as [| a h IH]; intros t i; simpl.
  - by destruct i.
  - destruct t as [| b t]; simpl.
    + destruct i; simpl; [reflexivity |]. by destruct (h !! i).
    + destruct i; simpl; [reflexivity | apply IH].
Qed.

(** X17.  A data row read while a flag is set becomes one dict, added to the
    table of the flag that is set and to no other variable: the first number
    on the line (the atom index) is dropped, and each header name is mapped
    to the number at its own position among the rest; where a name occurs
    more than once among the names that have a number, its last position
    counts. *)
Theorem data_row_is_keyed_by_header :
  forall (st : scan_state) (clean : string) (x0 : float) (tokens : list float),
    reading st = true ->
    startswith clean "# of ion" = false ->
    match_data_row clean = true ->
    mapM py_float (findall_numeric clean) = inr (x0 :: tokens) ->
    exists row,
      read_block st clean = inr (add_row st row) /\
      (forall i k v,
          header st !! i = Some k -> tokens !! i = Some v ->
          (forall j, i < j -> j < length tokens -> header st !! j <> Some k) ->
          row !! k = Some v) /\
      (read_charge st = false -> read_mag_x st = true ->
         mag_x (add_row st row) = mag_x st ++ [row] /\
         charge (add_row st row) = charge st /\
         mag_y (add_row st row) = mag_y st /\
         mag_z (add_row st row) = mag_z st) /\
      mag_x_all (add_row st row) = mag_x_all st /\
      header (add_row st row) = header st /\
      flags_set (add_row st row) = flags_set st.
Proof.
  intros st clean x0 tokens Hr Hh Hm Hf.
  exists (dict_of_pairs (combine (header st) tokens)).
  repeat apply conj; try reflexivity.
  - unfold read_block. by rewrite Hr, Hh, Hm, Hf.
  - intros i k v Hk Hv Hlast.
    apply (dict_of_pairs_lookup _ i k v).
    + by rewrite combine_lookup, Hk, Hv.
    + intros j w Hj Hjw. rewrite combine_lookup in Hjw.
      destruct (header st !! j) as [k' |] eqn:Ek; [| discriminate].
      destruct (tokens !! j) as [w' |] eqn:Ew; [| discriminate].
      inversion Hjw; subst. apply (Hlast j Hj); [| exact Ek].
      by apply lookup_lt_Some in Ew.
  - intros Hc Hx. unfold add_row. simpl. by rewrite Hc, Hx.
Qed.

Lemma data_row_is_keyed_by_header_witness :
  exists row,
    read_block reading_mag_x "2   -0.020   0.5" =
      inr (add_row reading_mag_x row) /\
    row !! "tot" = Some (-0.02)%float.
Proof.
  destruct (data_row_is_keyed_by_header reading_mag_x
              "2   -0.020   0.5" 2%float [(-0.02)%float; 0.5%float]
              eq_refl eq_refl eq_refl ltac:(vm_compute; reflexivity))
    as (row & Hb & Hrow & _).
  exists row. split.
  - exact Hb.
  - apply (Hrow 0 "tot" (-0.02)%float eq_refl eq_refl).
    intros j Hj Hlt. destruct j as [| [| j]]; [lia | discriminate |].
    simpl in Hlt. lia.
Defined.



(** * Further properties of the line formats *)

Lemma space_not_numchar c : is_space c = true -> is_numchar c = false.
Proof.
  destruct c as [[] [] [] [] [] [] [] []]; vm_compute; congruence.
Qed.

Lemma digit_is_numchar c : is_digit c = true -> is_numchar c = true.
Proof. unfold is_numchar. by intros ->. Qed.

Lemma numchar_not_space c : is_numchar c = true -> is_space c = false.
Proof.
  intros H. destruct (is_space c) eqn:E; [| reflexivity].
  apply space_not_numchar in E. congruence.
Qed.

Lemma space_not_digit c : is_space c = true -> is_digit c = false.
Proof.
  intros H. destruct (is_digit c) eqn:E; [| reflexivity].
  apply digit_is_numchar in E. apply space_not_numchar in H. congruence.
Qed.

Lemma drop_while_app_all p a b :
  forallb p a = true -> drop_while p (a ++ b) = drop_while p b.
Proof.
  induction a as [| c a IH]; simpl; [done |].
  intros H. apply andb_true_iff in H as [-> H]. by apply IH.
Qed.

(** The text after a run of cells is empty or begins with a blank. *)
Lemma cells_start_blank (cells : list (list ascii * list ascii)) :
  Forall (fun c : list ascii * list ascii =>
            c.1 <> [] /\ forallb is_space c.1 = true) cells ->
  concat (map (fun c : list ascii * list ascii => c.1 ++ c.2) cells) = [] \/
  exists b t,
    concat (map (fun c : list ascii * list ascii => c.1 ++ c.2) cells) = b :: t /\
    is_space b = true.
Proof.
  intros H. destruct H as [| [bs w] cs [Hne Hsp] _]; [by left | right].
  simpl in *. destruct bs as [| b bs]; [done |].
  simpl in Hsp. apply andb_true_iff in Hsp as [Hb _].
  simpl. eauto.
Qed.

Lemma drop_while_stops p l :
  l = [] \/ (exists c t, l = c :: t /\ p c = false) -> drop_while p l = l.
Proof.
  intros [-> | (c & t & -> & Hc)]; [reflexivity |]. simpl. by rewrite Hc.
Qed.

Lemma eqb_length_shorter {A} (a b : list A) :
  a <> [] -> Nat.eqb (length b) (length (a ++ b)) = false.
Proof.
  intros Ha. apply Nat.eqb_neq. rewrite length_app.
  destruct a; [done |]. simpl. lia.
Qed.

Lemma findall_token t : forall found run,
  forallb is_numchar t = true ->
  fold_left findall_step t (found, run) = (found, rev t ++ run).
Proof.
  induction t as [| c t IH]; intros found run H; simpl; [reflexivity |].
  simpl in H. apply andb_true_iff in H as [Hc H]. rewrite Hc.
  rewrite (IH _ _ H). by rewrite <- app_assoc.
Qed.

Lemma findall_blanks_idle bs : forall found,
  forallb is_space bs = true ->
  fold_left findall_step bs (found, []) = (found, []).
Proof.
  induction bs as [| b bs IH]; intros found H; [reflexivity |].
  simpl in H. apply andb_true_iff in H as [Hb H].
  cbn [fold_left]. unfold findall_step at 2.
  rewrite (space_not_numchar _ Hb). by apply IH.
Qed.

Lemma findall_blanks bs : forall found run,
  bs <> [] -> forallb is_space bs = true ->
  fold_left findall_step bs (found, run) =
  (match run with
   | [] => found
   | _ => found ++ [string_of_list_ascii (rev run)]
   end, []).
Proof.
  intros found run Hne H. destruct bs as [| b bs]; [done |].
  simpl in H. apply andb_true_iff in H as [Hb H].
  cbn [fold_left]. unfold findall_step at 2.
  rewrite (space_not_numchar _ Hb).
  destruct run; by rewrite findall_blanks_idle.
Qed.

Lemma rev_nonempty {A} (l : list A) : l <> [] -> rev l <> [].
Proof.
  intros H Hn. apply (f_equal (@rev A)) in Hn.
  rewrite rev_involutive in Hn. done.
Qed.

Lemma findall_cells (cells : list (list ascii * list ascii)) :
  forall found tok,
    tok <> [] ->
    Forall (fun c : list ascii * list ascii =>
              c.1 <> [] /\ forallb is_space c.1 = true /\
              c.2 <> [] /\ forallb is_numchar c.2 = true) cells ->
    exists f run,
      fold_left findall_step
        (concat (map (fun c : list ascii * list ascii => c.1 ++ c.2) cells))
        (found, rev tok) = (f, run) /\
      run <> [] /\
      f ++ [string_of_list_ascii (rev run)] =
        found ++ map string_of_list_ascii (tok :: map snd cells).
Proof.
  induction cells as [| [bs w] cs IH]; intros found tok Htok Hall.
  - exists found, (rev tok). simpl. rewrite rev_involutive.
    repeat apply conj; [reflexivity | by apply rev_nonempty | reflexivity].
  - inversion Hall as [| ? ? (Hb & Hsp & Hw & Hnum) Hrest]; subst.
    simpl in Hb, Hsp, Hw, Hnum.
    cbn [map concat fst snd]. rewrite !fold_left_app.
    rewrite (findall_blanks bs found (rev tok) Hb Hsp).
    pose proof (rev_nonempty tok Htok) as Hrt.
    destruct (rev tok) as [| r rs] eqn:Er; [done |].
    rewrite (findall_token w _ [] Hnum), app_nil_r.
    destruct (IH (found ++ [string_of_list_ascii (rev (r :: rs))]) w Hw Hrest)
      as (f & run & E & Hne & Hf).
    exists f, run. rewrite E. repeat apply conj; [reflexivity | exact Hne |].
    rewrite Hf, <- Er, rev_involutive, <- app_assoc. reflexivity.
Qed.

(** X18.  Which lines count as data rows.  Take a line made of an atom
    index (digits) followed by numbers (characters of [0-9.-]), with blanks
    before each number.  It is recognised as a data row exactly when at
    least two numbers follow the index: line 85 asks for a blank after the
    first number, and a stripped line does not end in one.  The tokens found
    on it are the index and the numbers, in order. *)
Theorem data_row_needs_two_numbers :
  forall (index : list ascii) (cells : list (list ascii * list ascii)),
    index <> [] ->
    forallb is_digit index = true ->
    Forall (fun c : list ascii * list ascii =>
              c.1 <> [] /\ forallb is_space c.1 = true /\
              c.2 <> [] /\ forallb is_numchar c.2 = true) cells ->
    match_data_row (spaced_text index cells) = Nat.leb 2 (length cells) /\
    findall_numeric (spaced_text index cells) =
      map string_of_list_ascii (index :: map snd cells).
Proof.
  intros index cells Hne Hdig Hall.
  assert (forallb is_numchar index = true) as Hnum.
  { apply forallb_forall. intros c Hc. apply digit_is_numchar.
    by apply (proj1 (forallb_forall _ _) Hdig). }
  split.
  - unfold match_data_row, spaced_text.
    rewrite list_ascii_of_string_of_list_ascii.
    set (rest := concat (map (fun c : list ascii * list ascii => c.1 ++ c.2) cells)).
    assert (drop_while is_space (index ++ rest) = index ++ rest) as ->.
    { apply drop_while_stops. right. destruct index as [| c t]; [done |].
      exists c, (t ++ rest). split; [reflexivity |].
      simpl in Hdig. apply andb_true_iff in Hdig as [Hc _].
      by apply numchar_not_space, digit_is_numchar. }
    rewrite (drop_while_app_all _ _ _ Hdig).
    assert (drop_while is_digit rest = rest) as ->.
    { apply drop_while_stops.
      destruct (cells_start_blank cells) as [E | (b & t & E & Hb)].
      - eapply Forall_impl; [exact Hall |]. by intros c (? & ? & _).
      - by left.
      - right. exists b, t. split; [exact E | by apply space_not_digit]. }
    rewrite (eqb_length_shorter index rest Hne). simpl negb.
    destruct Hall as [| [bs w] cs (Hb & Hsp & Hw & Hwn) Hrest].
    { reflexivity. }
    subst rest. cbn [map concat fst snd] in *.
    set (rest := concat (map (fun c : list ascii * list ascii => c.1 ++ c.2) cs)).
    rewrite <- app_assoc, (drop_while_app_all _ _ _ Hsp).
    assert (drop_while is_space (w ++ rest) = w ++ rest) as ->.
    { apply drop_while_stops. right. destruct w as [| c t]; [done |].
      exists c, (t ++ rest). split; [reflexivity |].
      simpl in Hwn. apply andb_true_iff in Hwn as [Hc _].
      by apply numchar_not_space. }
    rewrite (eqb_length_shorter bs (w ++ rest) Hb). simpl negb.
    rewrite (drop_while_app_all _ _ _ Hwn).
    assert (drop_while is_numchar rest = rest) as ->.
    { apply drop_while_stops.
      destruct (cells_start_blank cs) as [E | (b & t & E & Hb')].
      - eapply Forall_impl; [exact Hrest |]. by intros c (? & ? & _).
      - by left.
      - right. exists b, t. split; [exact E | by apply space_not_numchar]. }
    rewrite (eqb_length_shorter w rest Hw). simpl negb. simpl andb.
    destruct (cells_start_blank cs) as [E | (b & t & E & Hb')].
    + eapply Forall_impl; [exact Hrest |]. by intros c (? & ? & _).
    + fold rest in E. rewrite E. destruct cs as [| [bs' w'] cs'];
        [reflexivity |].
      exfalso. inversion Hrest as [| ? ? (Hb2 & _) _]; subst.
      simpl in Hb2. subst rest. cbn [map concat fst snd] in E.
      destruct bs'; [done | discriminate].
    + fold rest in E. rewrite E, Hb'. destruct cs; [discriminate | reflexivity].
  - unfold findall_numeric, spaced_text.
    rewrite list_ascii_of_string_of_list_ascii, fold_left_app.
    rewrite (findall_token index [] [] Hnum), app_nil_r.
    destruct (findall_cells cells [] index Hne Hall) as (f & run & E & Hrun & Hf).
    rewrite E. destruct run as [| r rs]; [done |]. exact Hf.
Qed.

Lemma data_row_needs_two_numbers_witness :
  match_data_row "1   3.500" = false /\
  match_data_row "1   0.012   3.500" = true /\
  findall_numeric "1   0.012   3.500" = ["1"; "0.012"; "3.500"].
Proof.
  pose proof (data_row_needs_two_numbers
                (list_ascii_of_string "1")
                [(list_ascii_of_string "   ", list_ascii_of_string "3.500")]
                ltac:(discriminate) eq_refl
                ltac:(repeat constructor; discriminate)) as [H1 _].
  pose proof (data_row_needs_two_numbers
                (list_ascii_of_string "1")
                [(list_ascii_of_string "   ", list_ascii_of_string "0.012");
                 (list_ascii_of_string "   ", list_ascii_of_string "3.500")]
                ltac:(discriminate) eq_refl
                ltac:(repeat constructor; discriminate)) as [H2 H3].
  split; [exact H1 |]. split; [exact H2 | exact H3].
Defined.

Lemma split_word l :
  spaced_word l ->
  (forall done acc,
      fold_left split_step l
        {| sp_done := done; sp_field := acc; sp_blanks := [] |} =
      {| sp_done := done; sp_field := rev l ++ acc; sp_blanks := [] |}) /\
  (forall done acc b0,
      fold_left split_step l
        {| sp_done := done; sp_field := acc; sp_blanks := [b0] |} =
      {| sp_done := done; sp_field := rev l ++ b0 :: acc; sp_blanks := [] |}).
Proof.
  induction 1 as [c Hc | c l Hc Hl [IHa IHb] | c b l Hc Hb Hl [IHa IHb]].
  - split; intros; simpl; unfold split_step; by rewrite Hc.
  - split; intros; cbn [fold_left]; unfold split_step at 2; rewrite Hc;
      cbn [sp_blanks sp_done sp_field]; rewrite IHa; simpl;
      by rewrite <- !app_assoc.
  - split; intros; cbn [fold_left]; unfold split_step at 3; rewrite Hc;
      cbn [sp_blanks sp_done sp_field]; unfold split_step at 2; rewrite Hb;
      cbn [sp_blanks sp_done sp_field]; rewrite IHb; simpl;
      by rewrite <- !app_assoc.
Qed.

Lemma split_blanks_run bs : forall done acc pend,
  forallb is_space bs = true ->
  fold_left split_step bs
    {| sp_done := done; sp_field := acc; sp_blanks := pend |} =
  {| sp_done := done; sp_field := acc; sp_blanks := rev bs ++ pend |}.
Proof.
  induction bs as [| b bs IH]; intros done acc pend H; [reflexivity |].
  simpl in H. apply andb_true_iff in H as [Hb H].
  cbn [fold_left]. unfold split_step at 2. rewrite Hb.
  cbn [sp_blanks sp_done sp_field]. rewrite (IH _ _ _ H).
  simpl. by rewrite <- app_assoc.
Qed.

(** After two or more blanks, a word closes the field before it. *)
Lemma split_word_after_run l done acc pend :
  spaced_word l -> 2 <= length pend ->
  fold_left split_step l
    {| sp_done := done; sp_field := acc; sp_blanks := pend |} =
  {| sp_done := done ++ [string_of_list_ascii (rev acc)];
     sp_field := rev l; sp_blanks := [] |}.
Proof.
  intros Hl Hp. destruct pend as [| p1 [| p2 pend]]; simpl in Hp; try lia.
  inversion Hl as [c Hc | c l' Hc Hl' | c b l' Hc Hb Hl']; subst.
  - simpl. unfold split_step. by rewrite Hc.
  - cbn [fold_left]. unfold split_step at 2. rewrite Hc.
    cbn [sp_blanks sp_done sp_field]. unfold split_close.
    cbn [sp_blanks sp_done sp_field].
    rewrite (proj1 (split_word l' Hl')). reflexivity.
  - cbn [fold_left]. unfold split_step at 3. rewrite Hc.
    cbn [sp_blanks sp_done sp_field]. unfold split_step at 2. rewrite Hb.
    cbn [sp_blanks sp_done sp_field]. unfold split_close.
    cbn [sp_blanks sp_done sp_field].
    rewrite (proj2 (split_word l' Hl')). simpl. by rewrite <- !app_assoc.
Qed.

Lemma split_cells (cells : list (list ascii * list ascii)) :
  forall done w,
    Forall (fun c : list ascii * list ascii =>
              2 <= length c.1 /\ forallb is_space c.1 = true /\
              spaced_word c.2) cells ->
    exists done' w',
      fold_left split_step
        (concat (map (fun c : list ascii * list ascii => c.1 ++ c.2) cells))
        {| sp_done := done; sp_field := rev w; sp_blanks := [] |} =
      {| sp_done := done'; sp_field := rev w'; sp_blanks := [] |} /\
      done' ++ [string_of_list_ascii w'] =
        done ++ map string_of_list_ascii (w :: map snd cells).
Proof.
  induction cells as [| [bs w1] cs IH]; intros done w Hall.
  - by exists done, w.
  - inversion Hall as [| ? ? (Hlen & Hsp & Hw) Hrest]; subst.
    simpl in Hlen, Hsp, Hw.
    cbn [map concat fst snd]. rewrite !fold_left_app.
    rewrite (split_blanks_run bs _ _ _ Hsp), app_nil_r.
    rewrite (split_word_after_run w1 _ _ _ Hw) by (by rewrite length_rev).
    rewrite rev_involutive.
    destruct (IH (done ++ [string_of_list_ascii w]) w1 Hrest)
      as (done' & w' & E & Hd).
    exists done', w'. split; [exact E |].
    rewrite Hd, <- app_assoc. reflexivity.
Qed.

Lemma split_spaced_text first cells :
  spaced_word first ->
  Forall (fun c : list ascii * list ascii =>
            2 <= length c.1 /\ forallb is_space c.1 = true /\
            spaced_word c.2) cells ->
  split_blanks2 (spaced_text first cells) =
  map string_of_list_ascii (first :: map snd cells).
Proof.
  intros Hf Hall. unfold split_blanks2, spaced_text.
  rewrite list_ascii_of_string_of_list_ascii, fold_left_app.
  rewrite (proj1 (split_word first Hf)), app_nil_r.
  destruct (split_cells cells [] first Hall) as (done' & w' & E & Hd).
  rewrite E. cbn [sp_blanks]. unfold split_close. cbn [sp_done sp_field].
  by rewrite rev_involutive.
Qed.

Lemma spaced_word_ends l :
  spaced_word l ->
  (exists c t, l = c :: t /\ is_space c = false) /\
  (exists t c, l = t ++ [c] /\ is_space c = false).
Proof.
  induction 1 as [c Hc | c l Hc Hl [_ (t & x & -> & Hx)]
                 | c b l Hc Hb Hl [_ (t & x & -> & Hx)]].
  - split; [by exists c, [] | by exists [], c].
  - split; [by eexists _, _ | by exists (c :: t), x].
  - split; [by eexists _, _ | by exists (c :: b :: t), x].
Qed.

Lemma spaced_text_ends first cells :
  spaced_word first ->
  Forall (fun c : list ascii * list ascii =>
            2 <= length c.1 /\ forallb is_space c.1 = true /\
            spaced_word c.2) cells ->
  (exists c t,
     first ++ concat (map (fun c : list ascii * list ascii => c.1 ++ c.2) cells)
       = c :: t /\ is_space c = false) /\
  (exists t c,
     first ++ concat (map (fun c : list ascii * list ascii => c.1 ++ c.2) cells)
       = t ++ [c] /\ is_space c = false).
Proof.
  intros Hf Hall. split.
  - destruct (proj1 (spaced_word_ends first Hf)) as (c & t & -> & Hc).
    by eexists _, _.
  - revert first Hf. induction Hall as [| [bs w] cs (_ & _ & Hw) _ IH];
      intros first Hf.
    + simpl. rewrite app_nil_r. exact (proj2 (spaced_word_ends first Hf)).
    + simpl in Hw. destruct (IH w Hw) as (t & c & E & Hc).
      exists (first ++ bs ++ t), c. split; [| exact Hc].
      cbn [map concat fst snd]. rewrite <- !app_assoc, E.
      by rewrite <- ?app_assoc.
Qed.

Lemma strip_ends l :
  (exists c t, l = c :: t /\ is_space c = false) ->
  (exists t c, l = t ++ [c] /\ is_space c = false) ->
  strip (string_of_list_ascii l) = string_of_list_ascii l.
Proof.
  intros (c & t & E1 & Hc) (t' & c' & E2 & Hc').
  unfold strip. rewrite list_ascii_of_string_of_list_ascii. f_equal.
  rewrite (drop_while_stops is_space l) by (right; eauto).
  rewrite E2, rev_app_distr. simpl. rewrite Hc'. simpl.
  by rewrite rev_involutive.
Qed.

(** X19.  A header line.  Take a line made of the label "# of ion" followed
    by column names, each name a word without adjacent blanks, with two or
    more blanks before each name.  Read while a flag is set, it makes the
    header exactly the list of these names, in order, and changes nothing
    else. *)
Theorem header_line_sets_the_names :
  forall (st : scan_state) (cells : list (list ascii * list ascii)),
    reading st = true ->
    Forall (fun c : list ascii * list ascii =>
              2 <= length c.1 /\ forallb is_space c.1 = true /\
              spaced_word c.2) cells ->
    read_block st (spaced_text (list_ascii_of_string "# of ion") cells) =
      inr (set_header st (map string_of_list_ascii (map snd cells))) /\
    split_blanks2 (spaced_text (list_ascii_of_string "# of ion") cells) =
      "# of ion" :: map string_of_list_ascii (map snd cells).
Proof.
  intros st cells Hr Hall.
  assert (spaced_word (list_ascii_of_string "# of ion")) as Hlabel.
  { simpl. apply word_blank; [reflexivity | reflexivity |].
    apply word_char; [reflexivity |].
    apply word_blank; [reflexivity | reflexivity |].
    apply word_char; [reflexivity |]. apply word_char; [reflexivity |].
    by apply word_end. }
  pose proof (split_spaced_text _ cells Hlabel Hall) as Hsplit.
  split; [| exact Hsplit].
  unfold read_block. rewrite Hr.
  assert (startswith (spaced_text (list_ascii_of_string "# of ion") cells)
            "# of ion" = true) as ->.
  { unfold startswith, spaced_text. simpl.
    by destruct (string_of_list_ascii _). }
  destruct (spaced_text_ends _ cells Hlabel Hall) as [Hhead Hlast].
  unfold spaced_text at 1. rewrite (strip_ends _ Hhead Hlast).
  fold (spaced_text (list_ascii_of_string "# of ion") cells).
  rewrite Hsplit. reflexivity.
Qed.

Lemma header_line_sets_the_names_witness :
  read_block reading_mag_x "# of ion       s       p       d       tot" =
  inr (set_header reading_mag_x ["s"; "p"; "d"; "tot"]).
Proof.
  exact (proj1 (header_line_sets_the_names reading_mag_x
    [(list_ascii_of_string "       ", list_ascii_of_string "s");
     (list_ascii_of_string "       ", list_ascii_of_string "p");
     (list_ascii_of_string "       ", list_ascii_of_string "d");
     (list_ascii_of_string "       ", list_ascii_of_string "tot")]
    eq_refl
    ltac:(repeat constructor; simpl; lia))).
Defined.
